(** * Mention extraction and the filter cascade of [cort.core.mention_extractor]

    A shallow embedding of [src/cort/core/mention_extractor.py].  Python
    values are modelled as follows:
    - [int] as [Z], [str] as [string], [list] as [list], [None]-or-value as
      [option];
    - an operation that can raise ([l[i]] out of range, [l[-1]] on an empty
      list, [d[k]] on a missing key) returns [option], and the functions that
      use it are written in the option monad;
    - a [dict] as an association list in insertion order, which is the
      iteration order of a Python dict. *)

From Stdlib Require Import ZArith List Bool String Ascii Lia Permutation Sorted.
Import ListNotations.
Local Open Scope string_scope.
Local Open Scope list_scope.
Local Open Scope Z_scope.

Set Implicit Arguments.

(** ** The option monad, for code that may raise *)

Definition bind {A B : Type} (x : option A) (f : A -> option B) : option B :=
  match x with
  | Some a => f a
  | None => None
  end.

Notation "x <- c ;; k" := (bind c (fun x => k))
  (at level 61, c at next level, right associativity).

(** [[x for x in l if p x]], where evaluating [p] may raise. *)
Fixpoint filterM {A : Type} (p : A -> option bool) (l : list A)
  : option (list A) :=
  match l with
  | [] => Some []
  | x :: l' =>
      b <- p x ;;
      r <- filterM p l' ;;
      Some (if b then x :: r else r)
  end.

(** [[f x for x in l]], where evaluating [f] may raise. *)
Fixpoint mapM {A B : Type} (f : A -> option B) (l : list A)
  : option (list B) :=
  match l with
  | [] => Some []
  | x :: l' =>
      y <- f x ;;
      r <- mapM f l' ;;
      Some (y :: r)
  end.

(** ** Python list and string primitives *)

(** [l[i]]: a negative index counts from the end, an index out of range
    raises [IndexError]. *)
Definition py_index {A : Type} (l : list A) (i : Z) : option A :=
  let n := Z.of_nat (List.length l) in
  if (0 <=? i) && (i <? n) then nth_error l (Z.to_nat i)
  else if (- n <=? i) && (i <? 0) then nth_error l (Z.to_nat (n + i))
  else None.

(** [l[-1]]. *)
Fixpoint py_last {A : Type} (l : list A) : option A :=
  match l with
  | [] => None
  | [x] => Some x
  | _ :: l' => py_last l'
  end.

(** [l[0]]. *)
Definition py_first {A : Type} (l : list A) : option A :=
  match l with
  | [] => None
  | x :: _ => Some x
  end.

(** [" ".join(l)]. *)
Fixpoint join_space (l : list string) : string :=
  match l with
  | [] => ""
  | [s] => s
  | s :: l' => (s ++ " " ++ join_space l')%string
  end.

(** [c.lower()] on one character: the letters [A]..[Z] go to [a]..[z].
    Strings are sequences of bytes here; outside ASCII Python lowercases more
    characters, none of them to a string of the letters the filters compare
    with. *)
Definition lower_ascii (c : ascii) : ascii :=
  let n := nat_of_ascii c in
  if (65 <=? n)%nat && (n <=? 90)%nat then ascii_of_nat (n + 32) else c.

(** [s.lower()]. *)
Fixpoint lower (s : string) : string :=
  match s with
  | EmptyString => EmptyString
  | String c s' => String (lower_ascii c) (lower s')
  end.

(** [x in l] for a list of strings. *)
Definition str_in (x : string) (l : list string) : bool :=
  existsb (String.eqb x) l.

(** [s] begins with [p]. *)
Definition begins_with (p s : string) : Prop :=
  exists rest, s = (p ++ rest)%string.

(** [" " in s]. *)
Fixpoint has_space (s : string) : bool :=
  match s with
  | EmptyString => false
  | String c s' => Ascii.eqb c " " || has_space s'
  end.

(** [re.match("^(JJ)", s)] is a match object exactly when [s] starts with
    the two characters [JJ]. *)
Definition re_match_JJ (s : string) : bool := String.prefix "JJ" s.

(** ** [sorted]

    Python's [sorted] is a stable sort that compares with [<] only.  For an
    order in which [<] is a strict weak order the stable sorted arrangement of
    a list is unique, and it is the one this insertion sort builds: an element
    goes in front of the first later element that is not below it. *)
Section Sorted.
Variable A : Type.
Variable lt : A -> A -> bool.

Fixpoint insert (x : A) (l : list A) : list A :=
  match l with
  | [] => [x]
  | y :: l' => if lt y x then y :: insert x l' else x :: y :: l'
  end.

Definition sorted (l : list A) : list A := fold_right insert [] l.

(** [a] may stand before [b] in a sorted list. *)
Definition le_of (a b : A) : Prop := lt b a = false.
End Sorted.

(** ** Dictionaries

    [d[k].append(v)] on a [defaultdict(list)], or on a dict after
    [if k not in d: d[k] = []]: a new key goes last in iteration order, an
    existing key keeps its place. *)
Section Dict.
Variables K V : Type.
Variable eqb : K -> K -> bool.

Definition dict : Type := list (K * list V).

Fixpoint dict_append (d : dict) (k : K) (v : V) : dict :=
  match d with
  | [] => [(k, [v])]
  | (k', l) :: d' =>
      if eqb k' k then (k', l ++ [v]) :: d'
      else (k', l) :: dict_append d' k v
  end.

(** [d[k]], raising [KeyError] on a missing key. *)
Fixpoint dict_get (d : dict) (k : K) : option (list V) :=
  match d with
  | [] => None
  | (k', l) :: d' => if eqb k' k then Some l else dict_get d' k
  end.

(** The keys, in iteration order. *)
Definition dict_keys (d : dict) : list K := map fst d.

(** [d.get(k, [])]: the values filed under [k], none for a missing key. *)
Definition dict_values (d : dict) (k : K) : list V :=
  match dict_get d k with
  | Some l => l
  | None => []
  end.

(** The dict a loop [for x in l: d[key(x)].append(val(x))] builds. *)
Definition group_by {E : Type} (key : E -> K) (val : E -> V)
  (l : list E) (d : dict) : dict :=
  fold_left (fun d x => dict_append d (key x) (val x)) l d.
End Dict.

(** ** Spans *)

(** Modelled from the spec: the module [cort.core.spans] is not part of the
    sources.  A span is a pair of token offsets, [begin] and [end]. *)
Record Span : Type := mkSpan { sp_begin : Z; sp_end : Z }.

(** Modelled from the spec: two spans are equal iff they have the same
    [begin] and the same [end]. *)
Definition span_eqb (s t : Span) : bool :=
  (sp_begin s =? sp_begin t) && (sp_end s =? sp_end t).

(** Modelled from the spec: spans are ordered by [begin], then [end]. *)
Definition span_lt (s t : Span) : bool :=
  (sp_begin s <? sp_begin t)
  || ((sp_begin s =? sp_begin t) && (sp_end s <? sp_end t)).

(** Modelled from the spec: [s.embeds(other)] holds iff
    [s.begin <= other.begin], [s.end >= other.end] and the two spans are not
    equal. *)
Definition embeds (s other : Span) : bool :=
  (sp_begin s <=? sp_begin other) && (sp_end other <=? sp_end s)
  && negb (span_eqb s other).

(** The span order as a proposition: [begin] first, then [end]. *)
Definition span_le (s t : Span) : Prop :=
  sp_begin s < sp_begin t \/ (sp_begin s = sp_begin t /\ sp_end s <= sp_end t).

(** ** Parse trees

    The type of [attributes["parse_tree"]] is declared outside this module.
    The apposition filter uses two operations of it, [len(t)] (the number of
    children of [t]) and [x in t] (is [x] contained in [t]); they are the
    interface of the type here. *)
Class ParseTree (Tree : Type) : Type := {
  tree_len : Tree -> Z;
  tree_in : Tree -> Tree -> bool
}.

(** [for x in l: s = body(s, x)], where the body may raise. *)
Fixpoint for_each {A S : Type} (body : S -> A -> option S) (l : list A)
  (s : S) : option S :=
  match l with
  | [] => Some s
  | x :: l' => s' <- body s x ;; for_each body l' s'
  end.

(** [l[b:e]] for offsets within the list. *)
Definition py_slice {A : Type} (l : list A) (b e : Z) : list A :=
  firstn (Z.to_nat (e - b)) (skipn (Z.to_nat b) l).

(** [a == b] for an optional list of strings and a list of strings; [None]
    equals no list. *)
Definition context_eqb (a : option (list string)) (b : list string) : bool :=
  match a with
  | Some l => if list_eq_dec string_dec l b then true else false
  | None => false
  end.

(** The value of a test that does not raise. *)
Definition value_of {A : Type} (p : A -> option bool) (x : A) : bool :=
  match p x with
  | Some b => b
  | None => false
  end.

Section Model.
Context {Tree : Type} {PT : ParseTree Tree}.

(** *** Mentions *)

(** Modelled from the spec: the module [cort.core.mentions] is not part of
    the sources.  A mention is a span with the attributes the filters
    read, a fixed-field record; [document_tokens] is the token sequence of
    the document the mention comes from, which [get_context] reads;
    [is_dummy] tells the dummy mention from the others. *)
Record Mention : Type := mkMention {
  is_dummy : bool;
  document_tokens : list string;
  span : Span;
  tokens : list string;
  pos : list string;
  ner : list string;
  head_index : Z;
  head_span : Span;
  type : string;
  is_apposition : bool;
  parse_tree : Tree
}.

(** Modelled from the spec: mentions are ordered by their span. *)
Definition mention_lt (a b : Mention) : bool := span_lt (span a) (span b).

(** Modelled from the spec: [get_context(n)] is the [n] tokens that follow
    the span in the document, or [None] when fewer than [n] remain. *)
Definition get_context (m : Mention) (n : nat) : option (list string) :=
  let rest := skipn (Z.to_nat (sp_end (span m))) (document_tokens m) in
  if (n <=? List.length rest)%nat then Some (firstn n rest) else None.

(** The data-model invariant of the spec: [pos] and [ner] are as long as
    [tokens], and [head_index] is an index into them. *)
Definition well_formed (m : Mention) : Prop :=
  List.length (pos m) = List.length (tokens m)
  /\ List.length (ner m) = List.length (tokens m)
  /\ 0 <= head_index m < Z.of_nat (List.length (tokens m)).

(** *** Documents *)

(** Modelled from the spec: the document class is not part of the sources.
    A document exposes its tokens with their tags, the annotated mentions
    (each by its [span], the one attribute extraction reads) and, for any
    span, the head and parse information of the annotation pipeline. *)
Record Document : Type := mkDocument {
  doc_tokens : list string;
  doc_pos : list string;
  doc_ner : list string;
  annotated_mentions : list Span;
  head_index_of : Span -> Z;
  head_span_of : Span -> Span;
  type_of : Span -> string;
  is_apposition_of : Span -> bool;
  parse_tree_of : Span -> Tree
}.

(** Modelled from the spec: a mention takes its tokens and tags from the
    document, restricted to its span, and its head and parse information
    from the annotations of the document for that span. *)
Definition build_mention (dummy : bool) (s : Span) (d : Document)
  : Mention :=
  {| is_dummy := dummy;
     document_tokens := doc_tokens d;
     span := s;
     tokens := py_slice (doc_tokens d) (sp_begin s) (sp_end s);
     pos := py_slice (doc_pos d) (sp_begin s) (sp_end s);
     ner := py_slice (doc_ner d) (sp_begin s) (sp_end s);
     head_index := head_index_of d s;
     head_span := head_span_of d s;
     type := type_of d s;
     is_apposition := is_apposition_of d s;
     parse_tree := parse_tree_of d s |}.

(** Modelled from the spec: [Mention.from_document(span, document)] builds
    the mention from the document's data restricted to the span, and fails
    when the span lies outside the document. *)
Definition from_document (s : Span) (d : Document) : option Mention :=
  if (0 <=? sp_begin s)
     && (sp_end s <=? Z.of_nat (List.length (doc_tokens d)))
  then Some (build_mention false s d)
  else None.

(** Modelled from the spec: [Mention.dummy_from_document(document)] is the
    one mention flagged as the dummy.  The spec fixes none of its other
    attributes; here they are those of the empty span at offset 0. *)
Definition dummy_from_document (d : Document) : Mention :=
  build_mention true (mkSpan 0 0) d.

(** *** [extract_system_mentions] *)
Definition extract_system_mentions (document : Document)
  (filter_mentions : bool) : option (list Mention) :=
  system_mentions <-
    mapM (fun m_span => from_document m_span document)
         (annotated_mentions document) ;;
  let system_mentions := [dummy_from_document document] ++ system_mentions in
  Some system_mentions.

(** *** [post_process_by_head_pos] *)
Definition head_pos_keep (mention : Mention) : option bool :=
  tag <- py_index (pos mention) (head_index mention) ;;
  Some (negb (re_match_JJ tag)).

Definition post_process_by_head_pos (system_mentions : list Mention)
  : option (list Mention) :=
  kept <- filterM head_pos_keep system_mentions ;;
  Some (sorted mention_lt kept).

(** *** [post_process_by_nam_type] *)
Definition nam_type_keep (mention : Mention) : option bool :=
  if negb (type mention =? "NAM")%string then Some true
  else
    tag <- py_index (ner mention) (head_index mention) ;;
    Some (negb (str_in tag
                  ["QUANTITY"; "CARDINAL"; "ORDINAL"; "MONEY"; "PERCENT"])).

Definition post_process_by_nam_type (system_mentions : list Mention)
  : option (list Mention) :=
  kept <- filterM nam_type_keep system_mentions ;;
  Some (sorted mention_lt kept).

(** *** [post_process_weird] *)
Definition weird_keep (mention : Mention) : bool :=
  negb (str_in (lower (join_space (tokens mention)))
               ["mm"; "hmm"; "ahem"; "um"])
  && negb (join_space (tokens mention) =? "US")%string
  && negb (join_space (tokens mention) =? "U.S.")%string.

Definition post_process_weird (system_mentions : list Mention)
  : list Mention :=
  sorted mention_lt (filter weird_keep system_mentions).

(** *** [post_process_pleonastic_pronoun] *)

(** [context is not None and context[-1] == "that"]. *)
Definition ends_in_that (context : option (list string)) : option bool :=
  match context with
  | Some c => t <- py_last c ;; Some (t =? "that")%string
  | None => Some false
  end.

(** The body of the loop for one mention: [true] when it reaches a
    [continue], [false] when it reaches [filtered.append(mention)]. *)
Definition pleonastic (mention : Mention) : option bool :=
  let text := lower (join_space (tokens mention)) in
  skip_it <-
    (if (text =? "it")%string then
       let context_two := get_context mention 2 in
       let context_three := get_context mention 3 in
       two <- ends_in_that context_two ;;
       if two then Some true else ends_in_that context_three
     else Some false) ;;
  if skip_it then Some true
  else if (text =? "you")%string
       then Some (context_eqb (get_context mention 1) ["know"])
       else Some false.

Definition post_process_pleonastic_pronoun (system_mentions : list Mention)
  : option (list Mention) :=
  filtered <-
    for_each (fun filtered mention =>
                skip <- pleonastic mention ;;
                Some (if skip then filtered else filtered ++ [mention]))
             system_mentions [] ;;
  Some (sorted mention_lt filtered).

(** *** [post_process_same_head_largest_span] *)

(** [mention.span.end - mention.span.begin]. *)
Definition span_length (mention : Mention) : Z :=
  sp_end (span mention) - sp_begin (span mention).

(** [<] on the tuples [(length, mention)]: the first components decide
    unless they are equal; then the mentions decide, and two mentions with
    the same span are not below one another, whether or not [==] holds of
    them. *)
Definition pair_lt (p q : Z * Mention) : bool :=
  (fst p <? fst q) || ((fst p =? fst q) && mention_lt (snd p) (snd q)).

(** The tuple [(mention.span.end - mention.span.begin, mention)] a mention
    files under its head span. *)
Definition entry (mention : Mention) : Z * Mention :=
  (span_length mention, mention).

Definition head_span_to_mention (system_mentions : list Mention)
  : dict Span (Z * Mention) :=
  group_by span_eqb head_span entry system_mentions [].

(** [sorted(d[head_span])[-1][1]]. *)
Definition largest_of (d : dict Span (Z * Mention)) (head_span : Span)
  : option Mention :=
  group <- dict_get span_eqb d head_span ;;
  top <- py_last (sorted pair_lt group) ;;
  Some (snd top).

Definition post_process_same_head_largest_span
  (system_mentions : list Mention) : option (list Mention) :=
  let d := head_span_to_mention system_mentions in
  largest <- mapM (largest_of d) (dict_keys d) ;;
  Some (sorted mention_lt largest).

(** *** [post_process_embedded_head_largest_span] *)
Definition map_for_heads (system_mentions : list Mention) : dict Z Z :=
  group_by Z.eqb
           (fun mention => sp_end (head_span mention))
           (fun mention => sp_begin (head_span mention))
           system_mentions [].

(** [sorted(map_for_heads[head_span.end])[0] < head_span.begin]. *)
Definition head_begins_below (d : dict Z Z) (mention : Mention)
  : option bool :=
  let head_span := head_span mention in
  head_begins <- dict_get Z.eqb d (sp_end head_span) ;;
  first <- py_first (sorted Z.ltb head_begins) ;;
  Some (first <? sp_begin head_span).

Definition post_process_embedded_head_largest_span
  (system_mentions : list Mention) : option (list Mention) :=
  let d := map_for_heads system_mentions in
  post_processed_mentions <-
    for_each (fun post_processed mention =>
                skip <- head_begins_below d mention ;;
                Some (if skip then post_processed
                      else post_processed ++ [mention]))
             system_mentions [] ;;
  Some (sorted mention_lt post_processed_mentions).

(** *** [post_process_appositions] *)

(** One round of the inner loop over [appos]: the new value of
    [embedded_in_appo]. *)
Definition appo_step (mention : Mention) (embedded_in_appo : bool)
  (appo : Mention) : bool :=
  if embeds (span appo) (span mention)
     && negb (span_eqb (span appo) (span mention))
  then
    if tree_len (parse_tree appo) =? 2 then true
    else if tree_in (parse_tree mention) (parse_tree appo) then true
         else embedded_in_appo
  else embedded_in_appo.

Definition post_process_appositions (system_mentions : list Mention)
  : list Mention :=
  let appos := filter is_apposition system_mentions in
  let post_processed_mentions :=
    fold_left
      (fun post_processed mention =>
         let embedded_in_appo := fold_left (appo_step mention) appos false in
         if (type mention =? "PRO")%string || negb embedded_in_appo
         then post_processed ++ [mention]
         else post_processed)
      system_mentions [] in
  sorted mention_lt post_processed_mentions.

(** *** The seven filter stages *)
Inductive Stage : Type :=
| ByHeadPos
| ByNamType
| Weird
| PleonasticPronoun
| SameHeadLargestSpan
| EmbeddedHeadLargestSpan
| Appositions.

Definition run_stage (stage : Stage) (system_mentions : list Mention)
  : option (list Mention) :=
  match stage with
  | ByHeadPos => post_process_by_head_pos system_mentions
  | ByNamType => post_process_by_nam_type system_mentions
  | Weird => Some (post_process_weird system_mentions)
  | PleonasticPronoun => post_process_pleonastic_pronoun system_mentions
  | SameHeadLargestSpan =>
      post_process_same_head_largest_span system_mentions
  | EmbeddedHeadLargestSpan =>
      post_process_embedded_head_largest_span system_mentions
  | Appositions => Some (post_process_appositions system_mentions)
  end.

(** *** The tests of the last two stages, as the loops compute them *)

(** Some mention of the list has a head span that ends where the head
    span of [m] ends and begins before it. *)
Definition head_embedded (ms : list Mention) (m : Mention) : bool :=
  existsb (fun a =>
             (sp_end (head_span a) =? sp_end (head_span m))
             && (sp_begin (head_span a) <? sp_begin (head_span m)))
          ms.

(** [a] is an apposition that sets [embedded_in_appo] for [m]. *)
Definition appo_embeds (m a : Mention) : bool :=
  is_apposition a
  && (embeds (span a) (span m) && negb (span_eqb (span a) (span m)))
  && ((tree_len (parse_tree a) =? 2)
      || tree_in (parse_tree m) (parse_tree a)).

Definition embedded_in_appo (ms : list Mention) (m : Mention) : bool :=
  existsb (appo_embeds m) ms.

(** *** The removal criteria of the stages, as the documentation words
    them *)

(** The full surface text of a mention. *)
Definition surface (m : Mention) : string := join_space (tokens m).

(** The tag of the head token begins with [JJ]. *)
Definition adjectival_head (m : Mention) : Prop :=
  exists tag, py_index (pos m) (head_index m) = Some tag
              /\ begins_with "JJ" tag.

(** A proper name whose head has one of the numeric entity types. *)
Definition excluded_name (m : Mention) : Prop :=
  type m = "NAM"
  /\ exists tag, py_index (ner m) (head_index m) = Some tag
                 /\ In tag ["QUANTITY"; "CARDINAL"; "ORDINAL"; "MONEY";
                            "PERCENT"].

(** A filler, or the acronym in its exact case. *)
Definition weird_phrase (m : Mention) : Prop :=
  In (lower (surface m)) ["mm"; "hmm"; "ahem"; "um"]
  \/ surface m = "US" \/ surface m = "U.S.".

(** The [n]-token right context exists and its last token is [that]. *)
Definition context_ends_in_that (m : Mention) (n : nat) : Prop :=
  exists c, get_context m n = Some c /\ py_last c = Some "that".

Definition pleonastic_it (m : Mention) : Prop :=
  lower (surface m) = "it"
  /\ (context_ends_in_that m 2 \/ context_ends_in_that m 3).

Definition pleonastic_you (m : Mention) : Prop :=
  lower (surface m) = "you" /\ get_context m 1 = Some ["know"].

(** Some mention of the list has a head span with the same end and a
    strictly smaller begin. *)
Definition head_embedded_in (ms : list Mention) (m : Mention) : Prop :=
  exists a, In a ms
            /\ sp_end (head_span a) = sp_end (head_span m)
            /\ sp_begin (head_span a) < sp_begin (head_span m).

(** Some apposition of the list strictly embeds the span of [m], and has
    two children or contains the parse tree of [m]. *)
Definition embedded_in_apposition (ms : list Mention) (m : Mention)
  : Prop :=
  exists a, In a ms /\ is_apposition a = true
            /\ embeds (span a) (span m) = true /\ span a <> span m
            /\ (tree_len (parse_tree a) = 2
                \/ tree_in (parse_tree m) (parse_tree a) = true).

(** [(length, mention)] of [m] is at most that of [r] in the
    lexicographic order: span length first, then the order of mentions. *)
Definition pair_le (m r : Mention) : Prop :=
  span_length m < span_length r
  \/ (span_length m = span_length r /\ span_le (span m) (span r)).

(** A condition under which a stage keeps a mention of its input.  For
    six stages it is that their removal criterion does not hold of the
    mention.  The same-head stage keeps one mention of every group, so it
    keeps a mention that shares its head span with no other one. *)
Definition passes (stage : Stage) (ms : list Mention) (m : Mention)
  : Prop :=
  match stage with
  | ByHeadPos => ~ adjectival_head m
  | ByNamType => ~ excluded_name m
  | Weird => ~ weird_phrase m
  | PleonasticPronoun => ~ (pleonastic_it m \/ pleonastic_you m)
  | SameHeadLargestSpan =>
      forall a, In a ms -> head_span a = head_span m -> a = m
  | EmbeddedHeadLargestSpan => ~ head_embedded_in ms m
  | Appositions => ~ (type m <> "PRO" /\ embedded_in_apposition ms m)
  end.

(** The test by which a stage other than the same-head stage selects the
    mentions it keeps, on a list where the test does not raise. *)
Definition stage_test (stage : Stage) (ms : list Mention) (m : Mention)
  : bool :=
  match stage with
  | ByHeadPos => value_of head_pos_keep m
  | ByNamType => value_of nam_type_keep m
  | Weird => weird_keep m
  | PleonasticPronoun => negb (value_of pleonastic m)
  | SameHeadLargestSpan => true
  | EmbeddedHeadLargestSpan => negb (head_embedded ms m)
  | Appositions =>
      (type m =? "PRO")%string || negb (embedded_in_appo ms m)
  end.

(** A list of mentions in span order. *)
Definition sorted_by_span (l : list Mention) : Prop :=
  StronglySorted (fun a b => span_le (span a) (span b)) l.

(** The number of dummy mentions of a list. *)
Definition count_dummies (l : list Mention) : nat :=
  List.length (filter is_dummy l).
End Model.

Arguments Mention Tree : clear implicits.
Arguments Document Tree : clear implicits.

(** * Sample data

    A parse-tree node reduced to what the apposition filter asks of it: its
    label, the number of its children and the labels of the nodes it
    contains. *)
Record SampleTree : Type := mkSampleTree {
  node : string;
  children : Z;
  beneath : list string
}.

#[export] Instance sample_parse_tree : ParseTree SampleTree := {|
  tree_len t := children t;
  tree_in x t := str_in (node x) (beneath t)
|}.

Definition leaf (label : string) : SampleTree :=
  {| node := label; children := 1; beneath := [] |}.

(** A one-token mention at offset [b] of [doc], with its own token as the
    head. *)
Definition token_mention (doc : list string) (b : Z) (tag entity kind : string)
  : Mention SampleTree :=
  {| is_dummy := false;
     document_tokens := doc;
     span := mkSpan b (b + 1);
     tokens := py_slice doc b (b + 1);
     pos := [tag];
     ner := [entity];
     head_index := 0;
     head_span := mkSpan b (b + 1);
     type := kind;
     is_apposition := false;
     parse_tree := leaf tag |}.

(** The same mention, flagged as the dummy. *)
Definition as_dummy (m : Mention SampleTree) : Mention SampleTree :=
  {| is_dummy := true;
     document_tokens := document_tokens m;
     span := span m;
     tokens := tokens m;
     pos := pos m;
     ner := ner m;
     head_index := head_index m;
     head_span := head_span m;
     type := type m;
     is_apposition := is_apposition m;
     parse_tree := parse_tree m |}.

Definition happy_dog : list string := ["happy"; "dog"].
Definition m_happy : Mention SampleTree :=
  token_mention happy_dog 0 "JJ" "O" "NOM".
Definition m_dog : Mention SampleTree :=
  token_mention happy_dog 1 "NN" "O" "NOM".

Definition fillers : list string := ["Um"; "US"; "us"; "U.S."].
Definition m_um : Mention SampleTree := token_mention fillers 0 "UH" "O" "NOM".
Definition m_US : Mention SampleTree :=
  token_mention fillers 1 "NNP" "GPE" "NAM".
Definition m_us : Mention SampleTree := token_mention fillers 2 "PRP" "O" "PRO".

Definition it_seems : list string :=
  ["It"; "seems"; "clear"; "that"; "you"; "know"; "it"].
Definition m_it : Mention SampleTree :=
  token_mention it_seems 0 "PRP" "O" "PRO".
Definition m_you : Mention SampleTree :=
  token_mention it_seems 4 "PRP" "O" "PRO".
Definition m_it_last : Mention SampleTree :=
  token_mention it_seems 6 "PRP" "O" "PRO".

(** A mention of several tokens, from offset [b] to offset [e] of [doc],
    with the head constituent from [hb] to [he]. *)
Definition phrase_mention (doc : list string) (b e hb he : Z) (kind : string)
  (appositive : bool) (tree : SampleTree) : Mention SampleTree :=
  {| is_dummy := false;
     document_tokens := doc;
     span := mkSpan b e;
     tokens := py_slice doc b e;
     pos := map (fun _ => "NN") (py_slice doc b e);
     ner := map (fun _ => "O") (py_slice doc b e);
     head_index := hb - b;
     head_span := mkSpan hb he;
     type := kind;
     is_apposition := appositive;
     parse_tree := tree |}.

Definition old_dog : list string := ["the"; "very"; "old"; "dog"; "barks"].

(** Two mentions with the head [dog], three and five tokens long. *)
Definition m_three : Mention SampleTree :=
  phrase_mention old_dog 1 4 3 4 "NOM" false (leaf "NP").
Definition m_five : Mention SampleTree :=
  phrase_mention old_dog 0 5 3 4 "NOM" false (leaf "S").

(** A mention with the head [old dog], and one with the head [dog]. *)
Definition m_wide_head : Mention SampleTree :=
  phrase_mention old_dog 0 4 2 4 "NOM" false (leaf "NP").
Definition m_narrow_head : Mention SampleTree :=
  phrase_mention old_dog 3 4 3 4 "NOM" false (leaf "NN").

Definition he_the_ceo : list string := ["he"; ","; "the"; "CEO"; ","].

(** An apposition with two children, a nominal and a pronoun inside it. *)
Definition m_appo : Mention SampleTree :=
  phrase_mention he_the_ceo 0 5 0 1 "NOM" true
    {| node := "NP"; children := 2; beneath := ["PRP"; "NP"] |}.
Definition m_the_ceo : Mention SampleTree :=
  phrase_mention he_the_ceo 2 4 3 4 "NOM" false (leaf "NP").
Definition m_he : Mention SampleTree :=
  phrase_mention he_the_ceo 0 1 0 1 "PRO" false (leaf "PRP").

(** A three-token document whose annotated mentions are the given spans. *)
Definition sample_document (spans : list Span) : Document SampleTree :=
  {| doc_tokens := ["happy"; "dog"; "barks"];
     doc_pos := ["JJ"; "NN"; "VBZ"];
     doc_ner := ["O"; "O"; "O"];
     annotated_mentions := spans;
     head_index_of := fun _ => 0;
     head_span_of := fun s => s;
     type_of := fun _ => "NOM";
     is_apposition_of := fun _ => false;
     parse_tree_of := fun _ => leaf "NP" |}.

(** The last token is annotated before the first one. *)
Definition unsorted_document : Document SampleTree :=
  sample_document [mkSpan 2 3; mkSpan 0 1].

Definition sorted_document : Document SampleTree :=
  sample_document [mkSpan 0 1; mkSpan 0 2; mkSpan 2 3].

(** The seven stages, in the order of the module. *)
Definition all_stages : list Stage :=
  [ByHeadPos; ByNamType; Weird; PleonasticPronoun; SameHeadLargestSpan;
   EmbeddedHeadLargestSpan; Appositions].

(** A mention with another head index. *)
Definition with_head_index (i : Z) (m : Mention SampleTree)
  : Mention SampleTree :=
  {| is_dummy := is_dummy m;
     document_tokens := document_tokens m;
     span := span m;
     tokens := tokens m;
     pos := pos m;
     ner := ner m;
     head_index := i;
     head_span := head_span m;
     type := type m;
     is_apposition := is_apposition m;
     parse_tree := parse_tree m |}.

(** A mention with another type, and with every token tagged as the given
    entity. *)
Definition with_entity (kind entity : string) (m : Mention SampleTree)
  : Mention SampleTree :=
  {| is_dummy := is_dummy m;
     document_tokens := document_tokens m;
     span := span m;
     tokens := tokens m;
     pos := pos m;
     ner := map (fun _ => entity) (ner m);
     head_index := head_index m;
     head_span := head_span m;
     type := kind;
     is_apposition := is_apposition m;
     parse_tree := parse_tree m |}.

(** The five-token mention as a proper name that names an amount. *)
Definition m_money : Mention SampleTree := with_entity "NAM" "MONEY" m_five.

(** An [it] with three tokens between it and [that]. *)
Definition it_is_very_clear : list string :=
  ["it"; "is"; "very"; "clear"; "that"].
Definition m_it_far : Mention SampleTree :=
  token_mention it_is_very_clear 0 "PRP" "O" "PRO".

(** * Properties of the primitives *)

Lemma filter_all {A : Type} (p : A -> bool) (l : list A) :
  Forall (fun x => p x = true) l -> filter p l = l.
Proof.
  induction 1 as [|x l Hx _ IH]; simpl; [reflexivity|].
  now rewrite Hx, IH.
Qed.

Lemma filter_none {A : Type} (p : A -> bool) (l : list A) :
  (forall x, In x l -> p x = false) -> filter p l = [].
Proof.
  induction l as [|x l IH]; simpl; intros H; [reflexivity|].
  rewrite (H x) by now left. apply IH. intros y Hy. apply H. now right.
Qed.

Lemma existsb_pointwise {A : Type} (p q : A -> bool) (l : list A) :
  (forall x, p x = q x) -> existsb p l = existsb q l.
Proof.
  intros H. induction l as [|x l IH]; simpl; [reflexivity|].
  now rewrite H, IH.
Qed.

Lemma filter_Permutation {A : Type} (p : A -> bool) (l l' : list A) :
  Permutation l l' -> Permutation (filter p l) (filter p l').
Proof.
  induction 1 as [|x l l' _ IH|x y l|l l' l'' _ IH1 _ IH2]; simpl.
  - constructor.
  - destruct (p x); [now constructor|exact IH].
  - destruct (p x), (p y); try reflexivity; apply perm_swap.
  - now transitivity (filter p l').
Qed.

Lemma filter_swap {A : Type} (p q : A -> bool) (l : list A) :
  filter p (filter q l) = filter q (filter p l).
Proof.
  induction l as [|x l IH]; simpl; [reflexivity|].
  destruct (q x) eqn:Hq, (p x) eqn:Hp; simpl; rewrite ?Hq, ?Hp, IH;
    reflexivity.
Qed.

Lemma py_last_app {A : Type} (l : list A) (x : A) : py_last (l ++ [x]) = Some x.
Proof.
  induction l as [|y l IH]; simpl; [reflexivity|].
  destruct (l ++ [x]) eqn:E; [now destruct l|exact IH].
Qed.

Lemma py_last_In {A : Type} (l : list A) (x : A) :
  py_last l = Some x -> In x l.
Proof.
  induction l as [|y l IH]; simpl; [discriminate|].
  destruct l as [|z l]; [intros [= ->]; now left|].
  intros H. right. now apply IH.
Qed.

Lemma py_last_some {A : Type} (l : list A) :
  l <> [] -> exists x, py_last l = Some x.
Proof.
  induction l as [|y l IH]; [congruence|intros _].
  destruct l as [|z l]; [now exists y|].
  destruct IH as [x Hx]; [discriminate|]. now exists x.
Qed.

Lemma py_index_in_range {A : Type} (l : list A) (i : Z) :
  0 <= i < Z.of_nat (List.length l) -> exists x, py_index l i = Some x.
Proof.
  intros Hi. unfold py_index.
  replace ((0 <=? i) && (i <? Z.of_nat (List.length l))) with true
    by (symmetry; apply andb_true_iff; split;
        [apply Z.leb_le|apply Z.ltb_lt]; lia).
  destruct (nth_error l (Z.to_nat i)) eqn:E; [eauto|].
  apply nth_error_None in E. lia.
Qed.

Section SortedFacts.
Variable A : Type.
Variable lt : A -> A -> bool.

Lemma insert_Permutation x l : Permutation (insert lt x l) (x :: l).
Proof.
  induction l as [|y l IH]; simpl; [reflexivity|].
  destruct (lt y x); [|reflexivity].
  rewrite IH. apply perm_swap.
Qed.

Lemma sorted_Permutation l : Permutation (sorted lt l) l.
Proof.
  induction l as [|x l IH]; simpl; [reflexivity|].
  rewrite insert_Permutation. now constructor.
Qed.

Lemma sorted_In x l : In x (sorted lt l) <-> In x l.
Proof.
  split; apply Permutation_in;
    [|symmetry]; apply sorted_Permutation.
Qed.

Lemma sorted_Forall (P : A -> Prop) l : Forall P l -> Forall P (sorted lt l).
Proof.
  rewrite !Forall_forall. intros H x Hx. apply H. now apply sorted_In.
Qed.

Lemma sorted_filter_length (p : A -> bool) l :
  List.length (filter p (sorted lt l)) = List.length (filter p l).
Proof.
  apply Permutation_length, filter_Permutation, sorted_Permutation.
Qed.

Lemma sorted_nil_inv l : sorted lt l = [] -> l = [].
Proof.
  intros H. apply Permutation_nil. rewrite <- H.
  apply sorted_Permutation.
Qed.

(** A list that is already in order is left as it is. *)
Lemma sorted_fixed l : Sorted (le_of lt) l -> sorted lt l = l.
Proof.
  induction 1 as [|x l _ IH Hd]; simpl; [reflexivity|].
  rewrite IH. destruct Hd as [|y l Hxy]; simpl; [reflexivity|].
  unfold le_of in Hxy. now rewrite Hxy.
Qed.

Hypothesis lt_asym : forall a b, lt a b = true -> lt b a = false.
Hypothesis le_trans : forall a b c,
  le_of lt a b -> le_of lt b c -> le_of lt a c.

Lemma insert_Sorted x l :
  Sorted (le_of lt) l -> Sorted (le_of lt) (insert lt x l).
Proof.
  induction 1 as [|y l Hl IH Hd]; simpl; [repeat constructor|].
  destruct (lt y x) eqn:Hyx.
  - constructor; [exact IH|].
    destruct Hd as [|z l Hyz]; simpl.
    + constructor. now apply lt_asym.
    + destruct (lt z x); constructor; [exact Hyz|now apply lt_asym].
  - repeat constructor; assumption.
Qed.

Lemma sorted_Sorted l : Sorted (le_of lt) (sorted lt l).
Proof.
  induction l as [|x l IH]; simpl; [constructor|now apply insert_Sorted].
Qed.

Lemma sorted_StronglySorted l : StronglySorted (le_of lt) (sorted lt l).
Proof.
  apply Sorted_StronglySorted; [exact le_trans|apply sorted_Sorted].
Qed.

Lemma sorted_idempotent l : sorted lt (sorted lt l) = sorted lt l.
Proof. apply sorted_fixed, sorted_Sorted. Qed.

(** The last element of a sorted list is a greatest one, the first a
    least one. *)
Lemma py_last_greatest l x y :
  StronglySorted (le_of lt) l -> py_last l = Some x -> In y l ->
  le_of lt y x.
Proof.
  induction 1 as [|z l Hl IH Hz]; simpl; [discriminate|].
  destruct l as [|w l].
  - intros [= ->] [<-|[]]. unfold le_of.
    destruct (lt x x) eqn:E; [|reflexivity].
    now rewrite (lt_asym E) in E.
  - intros Hlast [->|Hy]; [|now apply IH].
    rewrite Forall_forall in Hz. now apply Hz, py_last_In.
Qed.

Lemma py_first_least l x y :
  StronglySorted (le_of lt) l -> py_first l = Some x -> In y l ->
  le_of lt x y.
Proof.
  intros Hl Hx Hy. destruct l as [|z l]; [discriminate|].
  injection Hx as ->. apply StronglySorted_inv in Hl as [_ Hz].
  destruct Hy as [->|Hy].
  - unfold le_of. destruct (lt y y) eqn:E; [|reflexivity].
    now rewrite (lt_asym E) in E.
  - rewrite Forall_forall in Hz. now apply Hz.
Qed.
End SortedFacts.

Section DictFacts.
Variables K V : Type.
Variable eqb : K -> K -> bool.
Hypothesis eqb_eq : forall a b, eqb a b = true <-> a = b.

Lemma eqb_refl_true k : eqb k k = true.
Proof. now apply eqb_eq. Qed.

Lemma dict_get_keys (d : dict K V) k :
  In k (dict_keys d) <-> exists l, dict_get eqb d k = Some l.
Proof.
  induction d as [|[k' l] d IH]; simpl.
  - split; [intros []|intros [? [=]]].
  - destruct (eqb k' k) eqn:E.
    + apply eqb_eq in E. split; eauto.
    + rewrite IH. split; [intros [->|H]; [|exact H]|now right].
      now rewrite eqb_refl_true in E.
Qed.

Lemma dict_get_values (d : dict K V) k :
  In k (dict_keys d) -> dict_get eqb d k = Some (dict_values eqb d k).
Proof.
  intros [l Hl]%dict_get_keys. unfold dict_values. now rewrite Hl.
Qed.

Lemma dict_append_keys (d : dict K V) k v k' :
  In k' (dict_keys (dict_append eqb d k v)) <-> k' = k \/ In k' (dict_keys d).
Proof.
  induction d as [|[k0 l] d IH]; simpl.
  - intuition congruence.
  - destruct (eqb k0 k) eqn:E; simpl.
    + apply eqb_eq in E. subst. intuition congruence.
    + rewrite IH. intuition congruence.
Qed.

Lemma dict_append_NoDup (d : dict K V) k v :
  NoDup (dict_keys d) -> NoDup (dict_keys (dict_append eqb d k v)).
Proof.
  induction d as [|[k0 l] d IH]; simpl; intros Hd.
  - repeat constructor. intros [].
  - inversion Hd as [|? ? Hk0 Hd']; subst.
    destruct (eqb k0 k) eqn:E; simpl; [now constructor|].
    constructor; [|now apply IH].
    intros [->|H]%dict_append_keys; [|contradiction].
    now rewrite eqb_refl_true in E.
Qed.

Lemma dict_append_values (d : dict K V) k v k' :
  dict_values eqb (dict_append eqb d k v) k'
  = dict_values eqb d k' ++ (if eqb k k' then [v] else []).
Proof.
  unfold dict_values. induction d as [|[k0 l] d IH]; simpl.
  - destruct (eqb k k'); reflexivity.
  - destruct (eqb k0 k) eqn:E; simpl.
    + apply eqb_eq in E. subst k0.
      destruct (eqb k k'); [reflexivity|].
      now rewrite app_nil_r.
    + destruct (eqb k0 k') eqn:E'; [|exact IH].
      apply eqb_eq in E'. subst k0.
      destruct (eqb k k') eqn:E2; [|now rewrite app_nil_r].
      apply eqb_eq in E2. subst k'. now rewrite eqb_refl_true in E.
Qed.

Lemma dict_append_new (d : dict K V) k v :
  ~ In k (dict_keys d) -> dict_append eqb d k v = d ++ [(k, [v])].
Proof.
  induction d as [|[k0 l] d IH]; simpl; intros Hk; [reflexivity|].
  destruct (eqb k0 k) eqn:E.
  - apply eqb_eq in E. tauto.
  - rewrite IH; tauto.
Qed.

Section GroupBy.
Variable E : Type.
Variable key : E -> K.
Variable val : E -> V.

Lemma group_by_keys l (d : dict K V) k :
  In k (dict_keys (group_by eqb key val l d))
  <-> In k (dict_keys d) \/ exists x, In x l /\ key x = k.
Proof.
  revert d. induction l as [|x l IH]; intros d; simpl.
  - split; [now left|intros [H|[? [[] _]]]; exact H].
  - change (group_by eqb key val (x :: l) d)
      with (group_by eqb key val l (dict_append eqb d (key x) (val x))).
    rewrite IH, dict_append_keys. split.
    + intros [[->|H]|[y [Hy <-]]]; eauto.
    + intros [H|[y [[->|Hy] <-]]]; eauto.
Qed.

Lemma group_by_NoDup l (d : dict K V) :
  NoDup (dict_keys d) -> NoDup (dict_keys (group_by eqb key val l d)).
Proof.
  revert d. induction l as [|x l IH]; intros d Hd; simpl; [exact Hd|].
  change (group_by eqb key val (x :: l) d)
    with (group_by eqb key val l (dict_append eqb d (key x) (val x))).
  apply IH. now apply dict_append_NoDup.
Qed.

Lemma group_by_values l (d : dict K V) k :
  dict_values eqb (group_by eqb key val l d) k
  = dict_values eqb d k
    ++ map val (filter (fun x => eqb (key x) k) l).
Proof.
  revert d. induction l as [|x l IH]; intros d; simpl.
  - now rewrite app_nil_r.
  - change (group_by eqb key val (x :: l) d)
      with (group_by eqb key val l (dict_append eqb d (key x) (val x))).
    rewrite IH, dict_append_values.
    rewrite <- app_assoc. now destruct (eqb (key x) k).
Qed.

(** When no two elements share a key, every element gets an entry of its
    own, in the order of the list. *)
Lemma group_by_distinct l (d : dict K V) :
  NoDup (dict_keys d ++ map key l) ->
  group_by eqb key val l d = d ++ map (fun x => (key x, [val x])) l.
Proof.
  revert d. induction l as [|x l IH]; intros d Hd; simpl.
  - now rewrite app_nil_r.
  - assert (Hx : ~ In (key x) (dict_keys d)).
    { intros Hin. apply NoDup_remove_2 in Hd. apply Hd.
      apply in_or_app. now left. }
    change (group_by eqb key val (x :: l) d)
      with (group_by eqb key val l (dict_append eqb d (key x) (val x))).
    rewrite dict_append_new by exact Hx.
    rewrite IH.
    + now rewrite <- app_assoc.
    + unfold dict_keys in *. rewrite map_app. simpl.
      rewrite <- app_assoc. exact Hd.
Qed.
End GroupBy.

Lemma filter_key_unique (E : Type) (key : E -> K) (l : list E) (x : E) :
  NoDup (map key l) -> In x l ->
  filter (fun y => eqb (key y) (key x)) l = [x].
Proof.
  induction l as [|y l IH]; simpl; [intros _ []|].
  intros Hd Hx. inversion Hd as [|? ? Hy Hd']; subst.
  destruct Hx as [->|Hx].
  - rewrite eqb_refl_true. f_equal.
    apply filter_none. intros z Hz.
    destruct (eqb (key z) (key x)) eqn:Ez; [|reflexivity].
    apply eqb_eq in Ez. exfalso. apply Hy. rewrite <- Ez.
    now apply in_map.
  - destruct (eqb (key y) (key x)) eqn:Ey; [|now apply IH].
    apply eqb_eq in Ey. exfalso. apply Hy. rewrite Ey. now apply in_map.
Qed.

Lemma filter_eqb_count (l : list K) (k : K) :
  NoDup l -> In k l -> List.length (filter (fun y => eqb y k) l) = 1%nat.
Proof.
  intros Hd Hk. rewrite <- (map_id l) in Hd.
  now rewrite (filter_key_unique (fun y => y) l k Hd Hk).
Qed.
End DictFacts.

(** ** Loops and comprehensions that do not raise *)

Lemma filterM_filter {A : Type} (p : A -> option bool) (q : A -> bool)
  (l : list A) :
  (forall x, In x l -> p x = Some (q x)) -> filterM p l = Some (filter q l).
Proof.
  induction l as [|x l IH]; simpl; intros H; [reflexivity|].
  rewrite (H x) by now left. simpl.
  rewrite IH by (intros y Hy; apply H; now right). reflexivity.
Qed.

Lemma mapM_map {A B : Type} (f : A -> option B) (g : A -> B) (l : list A) :
  (forall x, In x l -> f x = Some (g x)) -> mapM f l = Some (map g l).
Proof.
  induction l as [|x l IH]; simpl; intros H; [reflexivity|].
  rewrite (H x) by now left. simpl.
  rewrite IH by (intros y Hy; apply H; now right). reflexivity.
Qed.

Lemma mapM_some {A B : Type} (f : A -> option B) (l : list A) :
  (forall x, In x l -> exists y, f x = Some y) ->
  exists r, mapM f l = Some r /\ Forall2 (fun x y => f x = Some y) l r.
Proof.
  induction l as [|x l IH]; simpl; intros H; [now exists []|].
  destruct (H x) as [y Hy]; [now left|].
  destruct IH as [r [Hr HF]]; [intros z Hz; apply H; now right|].
  exists (y :: r). rewrite Hy, Hr. simpl. split; [reflexivity|].
  now constructor.
Qed.

Lemma mapM_keys {A B : Type} (f : B -> option A) (key : A -> B)
  (l : list A) :
  (forall x, In x l -> f (key x) = Some x) -> mapM f (map key l) = Some l.
Proof.
  induction l as [|x l IH]; simpl; intros H; [reflexivity|].
  rewrite (H x) by now left. simpl.
  rewrite IH by (intros y Hy; apply H; now right). reflexivity.
Qed.

Lemma for_each_filter {A : Type} (step : A -> option bool) (skip : A -> bool)
  (l acc : list A) :
  (forall x, In x l -> step x = Some (skip x)) ->
  for_each (fun filtered x =>
              s <- step x ;; Some (if s then filtered else filtered ++ [x]))
           l acc
  = Some (acc ++ filter (fun x => negb (skip x)) l).
Proof.
  revert acc. induction l as [|x l IH]; simpl; intros acc H.
  - now rewrite app_nil_r.
  - rewrite (H x) by now left. simpl.
    rewrite IH by (intros y Hy; apply H; now right).
    destruct (skip x); simpl; [reflexivity|].
    now rewrite <- app_assoc.
Qed.

Lemma fold_left_filter {A : Type} (keep : A -> bool) (l acc : list A) :
  fold_left (fun kept x => if keep x then kept ++ [x] else kept) l acc
  = acc ++ filter keep l.
Proof.
  revert acc. induction l as [|x l IH]; simpl; intros acc.
  - now rewrite app_nil_r.
  - rewrite IH. destruct (keep x); [|reflexivity].
    now rewrite <- app_assoc.
Qed.

(** ** The orders *)

Lemma span_eqb_eq (s t : Span) : span_eqb s t = true <-> s = t.
Proof.
  unfold span_eqb. rewrite andb_true_iff, !Z.eqb_eq.
  destruct s, t; simpl. split; [intros [-> ->]; reflexivity|].
  intros [= -> ->]. now split.
Qed.

Lemma span_le_iff (s t : Span) : le_of span_lt s t <-> span_le s t.
Proof.
  unfold le_of, span_lt, span_le.
  rewrite orb_false_iff, andb_false_iff, !Z.ltb_ge, Z.eqb_neq. lia.
Qed.

Lemma span_lt_asym (s t : Span) : span_lt s t = true -> span_lt t s = false.
Proof.
  unfold span_lt.
  rewrite orb_true_iff, andb_true_iff, orb_false_iff, andb_false_iff,
    !Z.ltb_lt, !Z.ltb_ge, Z.eqb_eq, Z.eqb_neq. lia.
Qed.

Lemma span_le_trans (r s t : Span) :
  le_of span_lt r s -> le_of span_lt s t -> le_of span_lt r t.
Proof. rewrite !span_le_iff. unfold span_le. lia. Qed.

Lemma Z_ltb_asym (a b : Z) : (a <? b) = true -> (b <? a) = false.
Proof. rewrite Z.ltb_lt, Z.ltb_ge. lia. Qed.

Lemma Z_le_of_trans (a b c : Z) :
  le_of Z.ltb a b -> le_of Z.ltb b c -> le_of Z.ltb a c.
Proof. unfold le_of. rewrite !Z.ltb_ge. lia. Qed.

Lemma value_of_some {A : Type} (p : A -> option bool) (l : list A) :
  (forall x, In x l -> exists b, p x = Some b) ->
  forall x, In x l -> p x = Some (value_of p x).
Proof.
  intros H x Hx. destruct (H x Hx) as [b Hb]. unfold value_of.
  now rewrite Hb.
Qed.

(** * The filter stages *)

Section StageFacts.
Context {Tree : Type} {PT : ParseTree Tree}.
Implicit Types (m a : Mention Tree) (ms : list (Mention Tree)).

Lemma mention_lt_asym m a : mention_lt m a = true -> mention_lt a m = false.
Proof. apply span_lt_asym. Qed.

Lemma mention_le_trans m a b :
  le_of mention_lt m a -> le_of mention_lt a b -> le_of mention_lt m b.
Proof. apply span_le_trans. Qed.

Lemma sorted_mentions_by_span ms : sorted_by_span (sorted mention_lt ms).
Proof.
  unfold sorted_by_span.
  assert (H := sorted_StronglySorted mention_lt_asym mention_le_trans ms).
  induction H as [|x l _ IH Hx]; constructor; [exact IH|].
  rewrite Forall_forall in *. intros y Hy.
  apply span_le_iff. now apply Hx.
Qed.

Lemma sorted_by_span_fixed ms :
  sorted_by_span ms -> sorted mention_lt ms = ms.
Proof.
  intros H. apply sorted_fixed. apply StronglySorted_Sorted.
  induction H as [|x l _ IH Hx]; constructor; [exact IH|].
  rewrite Forall_forall in *. intros y Hy.
  apply span_le_iff. now apply Hx.
Qed.

(** A comprehension with a test that does not raise on the list is a
    [filter]. *)
Lemma comprehension_filter (p : Mention Tree -> option bool) ms :
  (forall m, In m ms -> exists b, p m = Some b) ->
  (kept <- filterM p ms ;; Some (sorted mention_lt kept))
  = Some (sorted mention_lt (filter (value_of p) ms)).
Proof.
  intros H. rewrite (filterM_filter p (value_of p)); [reflexivity|].
  now apply value_of_some.
Qed.

(** Filtering a second time with a test that looks at the mention alone
    changes nothing. *)
Lemma sorted_filter_again (q : Mention Tree -> bool) ms :
  sorted mention_lt (filter q (sorted mention_lt (filter q ms)))
  = sorted mention_lt (filter q ms).
Proof.
  rewrite filter_all.
  - apply sorted_fixed, sorted_Sorted. exact mention_lt_asym.
  - apply sorted_Forall. rewrite Forall_forall.
    intros m Hm. now apply filter_In in Hm.
Qed.

(** *** Which stages return *)

Lemma head_pos_keep_some m :
  well_formed m -> exists b, head_pos_keep m = Some b.
Proof.
  intros (Hp & _ & Hi). unfold head_pos_keep.
  destruct (@py_index_in_range _ (pos m) (head_index m)) as [tag Htag];
    [rewrite Hp; exact Hi|].
  rewrite Htag. simpl. eauto.
Qed.

Lemma nam_type_keep_some m :
  well_formed m -> exists b, nam_type_keep m = Some b.
Proof.
  intros (_ & Hn & Hi). unfold nam_type_keep.
  destruct (negb (type m =? "NAM")%string); [eauto|].
  destruct (@py_index_in_range _ (ner m) (head_index m)) as [tag Htag];
    [rewrite Hn; exact Hi|].
  rewrite Htag. simpl. eauto.
Qed.

Lemma get_context_length m n c :
  get_context m n = Some c -> List.length c = n.
Proof.
  unfold get_context.
  destruct (n <=? _)%nat eqn:E; [|discriminate].
  intros [= <-]. apply Nat.leb_le in E. rewrite length_firstn. lia.
Qed.

Lemma ends_in_that_some m n :
  (0 < n)%nat -> exists b, ends_in_that (get_context m n) = Some b.
Proof.
  intros Hn. unfold ends_in_that.
  destruct (get_context m n) as [c|] eqn:E; [|eauto].
  apply get_context_length in E.
  destruct (@py_last_some _ c) as [t Ht].
  - intros ->. simpl in E. lia.
  - rewrite Ht. simpl. eauto.
Qed.

Lemma pleonastic_some m : exists b, pleonastic m = Some b.
Proof.
  unfold pleonastic.
  destruct (@ends_in_that_some m 2%nat) as [b2 H2]; [lia|].
  destruct (@ends_in_that_some m 3%nat) as [b3 H3]; [lia|].
  destruct (lower (join_space (tokens m)) =? "it")%string;
    [rewrite H2; simpl; destruct b2; [|rewrite H3]|]; simpl;
    repeat match goal with
      | |- context [if ?c then _ else _] => destruct c
      end; eauto.
Qed.

(** *** Each stage as a selection from its input *)

Lemma head_pos_filter ms :
  Forall well_formed ms ->
  post_process_by_head_pos ms
  = Some (sorted mention_lt (filter (value_of head_pos_keep) ms)).
Proof.
  intros H. apply comprehension_filter. rewrite Forall_forall in H.
  intros m Hm. now apply head_pos_keep_some, H.
Qed.

Lemma nam_type_filter ms :
  Forall well_formed ms ->
  post_process_by_nam_type ms
  = Some (sorted mention_lt (filter (value_of nam_type_keep) ms)).
Proof.
  intros H. apply comprehension_filter. rewrite Forall_forall in H.
  intros m Hm. now apply nam_type_keep_some, H.
Qed.

Lemma pleonastic_filter ms :
  post_process_pleonastic_pronoun ms
  = Some (sorted mention_lt
            (filter (fun m => negb (value_of pleonastic m)) ms)).
Proof.
  unfold post_process_pleonastic_pronoun.
  rewrite (for_each_filter pleonastic (value_of pleonastic)); [reflexivity|].
  apply value_of_some. intros m _. apply pleonastic_some.
Qed.

Lemma head_begins_below_spec ms m :
  In m ms ->
  head_begins_below (map_for_heads ms) m = Some (head_embedded ms m).
Proof.
  intros Hm. unfold head_begins_below, map_for_heads.
  set (kend := fun x : Mention Tree => sp_end (head_span x)).
  set (kbegin := fun x : Mention Tree => sp_begin (head_span x)).
  set (d := group_by Z.eqb kend kbegin ms []).
  change (sp_end (head_span m)) with (kend m).
  assert (Hk : In (kend m) (dict_keys d)).
  { apply (group_by_keys Z.eqb Z.eqb_eq). right. now exists m. }
  rewrite (dict_get_values Z.eqb Z.eqb_eq _ _ Hk). simpl.
  unfold d. rewrite (group_by_values Z.eqb Z.eqb_eq). simpl.
  set (L := map kbegin (filter (fun x => kend x =? kend m) ms)).
  assert (HL : forall b, In b L <->
                 exists x, In x ms /\ kend x = kend m /\ kbegin x = b).
  { intros b. unfold L. rewrite in_map_iff. split.
    - intros (x & <- & Hx). apply filter_In in Hx as [Hx E].
      apply Z.eqb_eq in E. now exists x.
    - intros (x & Hx & E & <-). exists x. split; [reflexivity|].
      apply filter_In. split; [exact Hx|now apply Z.eqb_eq]. }
  destruct (sorted Z.ltb L) as [|first rest] eqn:ES.
  - apply sorted_nil_inv in ES.
    assert (Hin : In (kbegin m) L) by (apply HL; now exists m).
    rewrite ES in Hin. destruct Hin.
  - simpl. f_equal. apply Bool.eq_iff_eq_true.
    unfold head_embedded. rewrite Z.ltb_lt, existsb_exists.
    assert (Hfirst : In first L).
    { apply (sorted_In Z.ltb). rewrite ES. now left. }
    split.
    + intros Hlt. apply HL in Hfirst as (x & Hx & E & Hb).
      exists x. split; [exact Hx|].
      apply andb_true_iff. split; [now apply Z.eqb_eq|].
      apply Z.ltb_lt. fold (kbegin x). lia.
    + intros (x & Hx & [E Hb]%andb_true_iff).
      apply Z.eqb_eq in E. apply Z.ltb_lt in Hb.
      assert (Hle : le_of Z.ltb first (kbegin x)).
      { apply (@py_first_least _ Z.ltb Z_ltb_asym (sorted Z.ltb L) first).
        - apply sorted_StronglySorted;
            [apply Z_ltb_asym|apply Z_le_of_trans].
        - now rewrite ES.
        - apply sorted_In, HL. now exists x. }
      unfold le_of in Hle. apply Z.ltb_ge in Hle.
      unfold kbegin in Hle. lia.
Qed.

Lemma embedded_head_filter ms :
  post_process_embedded_head_largest_span ms
  = Some (sorted mention_lt
            (filter (fun m => negb (head_embedded ms m)) ms)).
Proof.
  unfold post_process_embedded_head_largest_span.
  rewrite (for_each_filter (head_begins_below (map_for_heads ms))
             (head_embedded ms)); [reflexivity|].
  apply head_begins_below_spec.
Qed.

Lemma appo_loop m (appos : list (Mention Tree)) (flag : bool) :
  fold_left (appo_step m) appos flag
  = flag
    || existsb (fun a =>
                  (embeds (span a) (span m)
                   && negb (span_eqb (span a) (span m)))
                  && ((tree_len (parse_tree a) =? 2)
                      || tree_in (parse_tree m) (parse_tree a)))
               appos.
Proof.
  revert flag. induction appos as [|a appos IH]; intros flag; simpl.
  - now rewrite orb_false_r.
  - rewrite IH. unfold appo_step.
    destruct (embeds (span a) (span m)
              && negb (span_eqb (span a) (span m))); simpl;
      [|reflexivity].
    destruct (tree_len (parse_tree a) =? 2); simpl;
      [now rewrite orb_true_r|].
    destruct (tree_in (parse_tree m) (parse_tree a)); simpl;
      [now rewrite orb_true_r|].
    reflexivity.
Qed.

Lemma existsb_filter (p q : Mention Tree -> bool) ms :
  existsb q (filter p ms) = existsb (fun a => p a && q a) ms.
Proof.
  induction ms as [|a ms IH]; simpl; [reflexivity|].
  destruct (p a); simpl; now rewrite IH.
Qed.

Lemma appositions_filter ms :
  post_process_appositions ms
  = sorted mention_lt
      (filter (fun m => (type m =? "PRO")%string
                        || negb (embedded_in_appo ms m)) ms).
Proof.
  unfold post_process_appositions.
  rewrite (fold_left_filter
             (fun m => (type m =? "PRO")%string
                       || negb (fold_left (appo_step m)
                                  (filter is_apposition ms) false))).
  simpl. f_equal. apply filter_ext. intros m.
  rewrite appo_loop, existsb_filter. simpl.
  unfold embedded_in_appo. do 2 f_equal.
  apply existsb_pointwise. intros a. unfold appo_embeds.
  now rewrite andb_assoc.
Qed.

(** *** The same-head stage *)

Lemma pair_lt_iff (p q : Z * Mention Tree) :
  pair_lt p q = true
  <-> fst p < fst q
      \/ (fst p = fst q
          /\ (sp_begin (span (snd p)) < sp_begin (span (snd q))
              \/ (sp_begin (span (snd p)) = sp_begin (span (snd q))
                  /\ sp_end (span (snd p)) < sp_end (span (snd q))))).
Proof.
  unfold pair_lt, mention_lt, span_lt.
  rewrite !orb_true_iff, !andb_true_iff, !orb_true_iff, !andb_true_iff,
    !Z.ltb_lt, !Z.eqb_eq.
  reflexivity.
Qed.

Lemma pair_lt_asym (p q : Z * Mention Tree) :
  pair_lt p q = true -> pair_lt q p = false.
Proof.
  rewrite <- not_true_iff_false, !pair_lt_iff. lia.
Qed.

Lemma pair_le_trans (p q r : Z * Mention Tree) :
  le_of pair_lt p q -> le_of pair_lt q r -> le_of pair_lt p r.
Proof.
  unfold le_of. rewrite <- !not_true_iff_false, !pair_lt_iff. lia.
Qed.

Lemma head_span_keys ms h :
  In h (dict_keys (head_span_to_mention ms))
  <-> exists m, In m ms /\ head_span m = h.
Proof.
  unfold head_span_to_mention.
  rewrite (group_by_keys span_eqb span_eqb_eq). simpl. tauto.
Qed.

Lemma head_span_keys_NoDup ms :
  NoDup (dict_keys (head_span_to_mention ms)).
Proof.
  apply (group_by_NoDup span_eqb span_eqb_eq). constructor.
Qed.

Lemma head_span_group ms h :
  In h (dict_keys (head_span_to_mention ms)) ->
  dict_get span_eqb (head_span_to_mention ms) h
  = Some (map entry (filter (fun m => span_eqb (head_span m) h) ms)).
Proof.
  intros Hk. rewrite (dict_get_values span_eqb span_eqb_eq _ _ Hk).
  unfold head_span_to_mention.
  now rewrite (group_by_values span_eqb span_eqb_eq).
Qed.

(** The representative of a head span is a mention of its group that no
    mention of the group exceeds. *)
Lemma largest_of_spec ms h :
  In h (dict_keys (head_span_to_mention ms)) ->
  exists r,
    largest_of (head_span_to_mention ms) h = Some r
    /\ In r ms /\ head_span r = h
    /\ forall m, In m ms -> head_span m = h ->
                 pair_lt (entry r) (entry m) = false.
Proof.
  intros Hk. unfold largest_of. rewrite (head_span_group _ _ Hk). simpl.
  set (G := map entry (filter (fun m => span_eqb (head_span m) h) ms)).
  assert (HG : forall p, In p G <->
                 exists m, In m ms /\ head_span m = h /\ p = entry m).
  { intros p. unfold G. rewrite in_map_iff. split.
    - intros (m & <- & Hm). apply filter_In in Hm as [Hm E].
      apply span_eqb_eq in E. now exists m.
    - intros (m & Hm & E & ->). exists m. split; [reflexivity|].
      apply filter_In. split; [exact Hm|now apply span_eqb_eq]. }
  destruct (@py_last_some _ (sorted pair_lt G)) as [top Htop].
  - intros E. apply sorted_nil_inv in E.
    apply head_span_keys in Hk as (m & Hm & Hh).
    assert (Hin : In (entry m) G) by (apply HG; now exists m).
    rewrite E in Hin. destruct Hin.
  - rewrite Htop. simpl.
    assert (Hin : In top G) by (apply (sorted_In pair_lt), py_last_In, Htop).
    apply HG in Hin as (r & Hr & Hh & ->). exists r. simpl.
    repeat split; try assumption.
    intros m Hm Hmh.
    apply (@py_last_greatest _ pair_lt pair_lt_asym (sorted pair_lt G)
             (entry r) (entry m)).
    + apply sorted_StronglySorted;
        [apply pair_lt_asym|apply pair_le_trans].
    + exact Htop.
    + apply sorted_In, HG. now exists m.
Qed.

Lemma largest_of_all ms (ks : list Span) (reps : list (Mention Tree)) :
  (forall h, In h ks -> In h (dict_keys (head_span_to_mention ms))) ->
  Forall2 (fun h r => largest_of (head_span_to_mention ms) h = Some r)
          ks reps ->
  map head_span reps = ks
  /\ Forall (fun r =>
               In r ms
               /\ forall m, In m ms -> head_span m = head_span r ->
                            pair_lt (entry r) (entry m) = false)
            reps.
Proof.
  intros Hks HF. induction HF as [|h r ks reps Hr _ IH].
  - split; constructor.
  - destruct IH as [IH1 IH2]; [intros k Hk; apply Hks; now right|].
    destruct (largest_of_spec ms h) as (r' & Hr' & Hin & Hh & Hmax);
      [apply Hks; now left|].
    rewrite Hr in Hr'. injection Hr' as <-.
    split; simpl; [now rewrite Hh, IH1|].
    constructor; [|exact IH2].
    split; [exact Hin|]. intros m Hm Hmh. apply Hmax; congruence.
Qed.

Lemma same_head_spec ms :
  exists reps,
    post_process_same_head_largest_span ms
    = Some (sorted mention_lt reps)
    /\ map head_span reps = dict_keys (head_span_to_mention ms)
    /\ Forall (fun r =>
                 In r ms
                 /\ forall m, In m ms -> head_span m = head_span r ->
                              pair_lt (entry r) (entry m) = false)
              reps.
Proof.
  unfold post_process_same_head_largest_span.
  destruct (@mapM_some _ _ (largest_of (head_span_to_mention ms))
              (dict_keys (head_span_to_mention ms)))
    as (reps & Hreps & HF).
  { intros h Hh. destruct (largest_of_spec ms h Hh) as (r & Hr & _).
    now exists r. }
  exists reps. simpl. rewrite Hreps. simpl. split; [reflexivity|].
  apply largest_of_all; [auto|exact HF].
Qed.

(** When no two mentions share a head span, the stage only sorts. *)
Lemma same_head_distinct ms :
  NoDup (map head_span ms) ->
  post_process_same_head_largest_span ms = Some (sorted mention_lt ms).
Proof.
  intros Hd. unfold post_process_same_head_largest_span.
  assert (Hkeys : dict_keys (head_span_to_mention ms) = map head_span ms).
  { unfold head_span_to_mention.
    rewrite (group_by_distinct span_eqb span_eqb_eq); [|exact Hd].
    unfold dict_keys. simpl. rewrite map_map. reflexivity. }
  rewrite Hkeys. rewrite mapM_keys; [reflexivity|].
  intros x Hx. unfold largest_of.
  assert (Hk : In (head_span x) (dict_keys (head_span_to_mention ms))).
  { rewrite Hkeys. apply in_map_iff. now exists x. }
  rewrite (head_span_group _ _ Hk).
  rewrite (filter_key_unique span_eqb span_eqb_eq head_span ms x Hd Hx).
  reflexivity.
Qed.
End StageFacts.

(** * The tests of the stages and the documented criteria *)

Lemma str_in_iff (x : string) (l : list string) : str_in x l = true <-> In x l.
Proof.
  unfold str_in. rewrite existsb_exists. split.
  - intros (y & Hy & E). apply String.eqb_eq in E. now subst.
  - intros H. exists x. split; [exact H|apply String.eqb_refl].
Qed.

Lemma re_match_JJ_iff (s : string) :
  re_match_JJ s = true <-> begins_with "JJ" s.
Proof.
  unfold re_match_JJ, begins_with. split.
  - destruct s as [|c1 [|c2 s]]; cbn -[ascii_dec]; try discriminate.
    + destruct (ascii_dec "J" c1); discriminate.
    + destruct (ascii_dec "J" c1) as [<-|]; [|discriminate].
      destruct (ascii_dec "J" c2) as [<-|]; [|discriminate].
      intros _. now exists s.
  - intros [rest ->]. cbn -[ascii_dec].
    destruct (ascii_dec "J" "J"); [|congruence].
    now destruct rest.
Qed.

Lemma context_eqb_iff (c : option (list string)) (l : list string) :
  context_eqb c l = true <-> c = Some l.
Proof.
  unfold context_eqb. destruct c as [c|]; [|split; discriminate].
  destruct (list_eq_dec string_dec c l) as [->|N].
  - tauto.
  - split; [discriminate|intros [=]; contradiction].
Qed.

Section Criteria.
Context {Tree : Type} {PT : ParseTree Tree}.
Implicit Types (m a : Mention Tree) (ms : list (Mention Tree)).

Lemma head_pos_keep_iff m :
  well_formed m ->
  value_of head_pos_keep m = true <-> ~ adjectival_head m.
Proof.
  intros Hm. destruct (head_pos_keep_some Hm) as [b Hb].
  unfold value_of. rewrite Hb. unfold head_pos_keep in Hb.
  unfold adjectival_head.
  destruct (py_index (pos m) (head_index m)) as [tag|]; [|discriminate].
  injection Hb as <-. rewrite negb_true_iff, <- not_true_iff_false.
  rewrite re_match_JJ_iff. split.
  - intros H (tag' & [= <-] & Hj). contradiction.
  - intros H Hj. apply H. now exists tag.
Qed.

Lemma nam_type_keep_iff m :
  well_formed m ->
  value_of nam_type_keep m = true <-> ~ excluded_name m.
Proof.
  intros Hm. destruct (nam_type_keep_some Hm) as [b Hb].
  unfold value_of. rewrite Hb. unfold nam_type_keep in Hb.
  unfold excluded_name.
  destruct (String.eqb_spec (type m) "NAM") as [E|N]; cbn [negb] in Hb.
  - destruct (py_index (ner m) (head_index m)) as [tag|]; [|discriminate].
    cbn [bind] in Hb.
    apply (f_equal (fun o => match o with Some x => x | None => b end)) in Hb.
    cbv beta iota in Hb. rewrite <- Hb.
    rewrite negb_true_iff, <- not_true_iff_false.
    rewrite str_in_iff. split.
    + intros H (_ & tag' & [= <-] & Hin). contradiction.
    + intros H Hin. apply H. split; [exact E|]. now exists tag.
  - injection Hb as <-. split; [|reflexivity].
    intros _ [E _]. contradiction.
Qed.

Lemma weird_keep_iff m : weird_keep m = true <-> ~ weird_phrase m.
Proof.
  unfold weird_keep, weird_phrase, surface.
  rewrite !andb_true_iff, !negb_true_iff, <- !not_true_iff_false.
  rewrite str_in_iff, !String.eqb_eq. tauto.
Qed.

Lemma ends_in_that_iff m n :
  ends_in_that (get_context m n) = Some true <-> context_ends_in_that m n.
Proof.
  unfold ends_in_that, context_ends_in_that.
  destruct (get_context m n) as [c|].
  - destruct (py_last c) as [t|] eqn:El; simpl.
    + destruct (String.eqb_spec t "that") as [->|N].
      * split; [intros _; now exists c|reflexivity].
      * split; [discriminate|].
        intros (c' & [= <-] & E). congruence.
    + split; [discriminate|].
      intros (c' & [= <-] & E). congruence.
  - split; [discriminate|intros (c' & [=] & _)].
Qed.

Lemma pleonastic_iff m :
  pleonastic m = Some true <-> pleonastic_it m \/ pleonastic_you m.
Proof.
  unfold pleonastic, pleonastic_it, pleonastic_you, surface.
  rewrite <- !ends_in_that_iff, <- context_eqb_iff.
  destruct (@ends_in_that_some _ m 2%nat) as [b2 H2]; [lia|].
  destruct (@ends_in_that_some _ m 3%nat) as [b3 H3]; [lia|].
  rewrite H2, H3.
  destruct (String.eqb_spec (lower (join_space (tokens m))) "it")
    as [Eit|Nit]; simpl.
  - rewrite Eit. simpl.
    destruct b2; simpl; [intuition congruence|].
    destruct b3; simpl; intuition congruence.
  - destruct (String.eqb_spec (lower (join_space (tokens m))) "you")
      as [Eyou|Nyou].
    + destruct (context_eqb (get_context m 1) ["know"]);
        intuition congruence.
    + intuition congruence.
Qed.

Lemma pleonastic_keep_iff m :
  negb (value_of pleonastic m) = true
  <-> ~ (pleonastic_it m \/ pleonastic_you m).
Proof.
  rewrite <- pleonastic_iff. destruct (pleonastic_some m) as [b Hb].
  unfold value_of. rewrite Hb. destruct b; simpl; intuition congruence.
Qed.

Lemma head_embedded_iff ms m :
  head_embedded ms m = true <-> head_embedded_in ms m.
Proof.
  unfold head_embedded, head_embedded_in. rewrite existsb_exists.
  split; intros (a & Ha & H); exists a; (split; [exact Ha|]).
  - apply andb_true_iff in H as [E L].
    now apply Z.eqb_eq in E; apply Z.ltb_lt in L.
  - apply andb_true_iff. now rewrite Z.eqb_eq, Z.ltb_lt.
Qed.

Lemma embedded_in_appo_iff ms m :
  embedded_in_appo ms m = true <-> embedded_in_apposition ms m.
Proof.
  unfold embedded_in_appo, embedded_in_apposition, appo_embeds.
  rewrite existsb_exists.
  split; intros (a & Ha & H); exists a; (split; [exact Ha|]).
  - rewrite !andb_true_iff, negb_true_iff, orb_true_iff, Z.eqb_eq in H.
    destruct H as [[Happ [He Hn]] Ht]. repeat split; try assumption.
    intros E. rewrite E in Hn.
    assert (span_eqb (span m) (span m) = true) by now apply span_eqb_eq.
    congruence.
  - destruct H as (Happ & He & Hn & Ht).
    rewrite !andb_true_iff, negb_true_iff, orb_true_iff, Z.eqb_eq.
    repeat split; try assumption.
    apply not_true_iff_false. now rewrite span_eqb_eq.
Qed.

Lemma appositions_keep_iff ms m :
  (type m =? "PRO")%string || negb (embedded_in_appo ms m) = true
  <-> ~ (type m <> "PRO" /\ embedded_in_apposition ms m).
Proof.
  rewrite <- embedded_in_appo_iff, orb_true_iff, negb_true_iff.
  rewrite String.eqb_eq.
  destruct (string_dec (type m) "PRO");
    destruct (embedded_in_appo ms m); intuition congruence.
Qed.
End Criteria.

(** * The stages one by one *)

Section Selection.
Context {Tree : Type} {PT : ParseTree Tree}.
Implicit Types (m a : Mention Tree) (ms : list (Mention Tree)).

Lemma sorted_filter_In (q : Mention Tree -> bool) ms m :
  In m (sorted mention_lt (filter q ms)) <-> In m ms /\ q m = true.
Proof. now rewrite sorted_In, filter_In. Qed.

(** C8: on a list of well-formed mentions [post_process_by_head_pos]
    returns, and its output holds exactly the mentions of the input whose
    head POS tag does not begin with [JJ]; a mention whose head tag is [JJ]
    is absent, one whose head tag is [NN] is present. *)
Theorem post_process_by_head_pos_removes_adjectival_heads ms :
  Forall well_formed ms ->
  exists out,
    post_process_by_head_pos ms = Some out
    /\ (forall m, In m out <-> In m ms /\ ~ adjectival_head m)
    /\ (forall m, In m ms ->
                  py_index (pos m) (head_index m) = Some "JJ" ->
                  ~ In m out)
    /\ (forall m, In m ms ->
                  py_index (pos m) (head_index m) = Some "NN" ->
                  In m out).
Proof.
  intros Hwf. rewrite (head_pos_filter Hwf). eexists. split; [reflexivity|].
  assert (Hmem : forall m,
             In m (sorted mention_lt (filter (value_of head_pos_keep) ms))
             <-> In m ms /\ ~ adjectival_head m).
  { intros m. rewrite sorted_filter_In. rewrite Forall_forall in Hwf.
    split; intros [Hm H]; (split; [exact Hm|]);
      now apply (head_pos_keep_iff (Hwf m Hm)). }
  split; [exact Hmem|]. split.
  - intros m Hm Htag Hin. apply Hmem in Hin as [_ Hadj]. apply Hadj.
    exists "JJ". split; [exact Htag|]. now exists "".
  - intros m Hm Htag. apply Hmem. split; [exact Hm|].
    intros (tag & Htag' & rest & Hrest).
    rewrite Htag in Htag'. injection Htag' as <-. discriminate.
Qed.

(** C9: the output of [post_process_weird] holds exactly the mentions of
    the input whose surface text is none of [mm], [hmm], [ahem], [um] in
    any case and neither [US] nor [U.S.] in this exact case; a mention
    with the tokens [["us"]] is retained. *)
Theorem post_process_weird_removes_fixed_phrases ms m :
  (In m (post_process_weird ms) <-> In m ms /\ ~ weird_phrase m)
  /\ (In m ms -> tokens m = ["us"] -> In m (post_process_weird ms)).
Proof.
  assert (Hmem : In m (post_process_weird ms)
                 <-> In m ms /\ ~ weird_phrase m).
  { unfold post_process_weird.
    now rewrite sorted_filter_In, weird_keep_iff. }
  split; [exact Hmem|].
  intros Hm Htok. apply Hmem. split; [exact Hm|].
  unfold weird_phrase, surface. rewrite Htok. simpl.
  intros [[H|[H|[H|[H|[]]]]]|[H|H]]; discriminate.
Qed.

(** C4: [post_process_embedded_head_largest_span] returns, and its output
    holds exactly the mentions [m] of the input for which no mention of
    the input has a head span with the end of [m]'s head span and a
    strictly smaller begin. *)
Theorem post_process_embedded_head_largest_span_removes ms :
  exists out,
    post_process_embedded_head_largest_span ms = Some out
    /\ forall m, In m out <-> In m ms /\ ~ head_embedded_in ms m.
Proof.
  rewrite embedded_head_filter. eexists. split; [reflexivity|].
  intros m. rewrite sorted_filter_In, negb_true_iff.
  now rewrite <- not_true_iff_false, head_embedded_iff.
Qed.

(** C5: the output of [post_process_appositions] holds exactly the
    mentions of the input that are pronouns or are not strictly embedded
    in an apposition of the input that has two children or contains their
    parse tree; pronouns are never removed. *)
Theorem post_process_appositions_removes ms m :
  (In m (post_process_appositions ms)
   <-> In m ms /\ ~ (type m <> "PRO" /\ embedded_in_apposition ms m))
  /\ (In m ms -> type m = "PRO" -> In m (post_process_appositions ms)).
Proof.
  assert (Hmem : In m (post_process_appositions ms)
                 <-> In m ms
                     /\ ~ (type m <> "PRO" /\ embedded_in_apposition ms m)).
  { rewrite appositions_filter, sorted_filter_In.
    now rewrite appositions_keep_iff. }
  split; [exact Hmem|].
  intros Hm Hpro. apply Hmem. split; [exact Hm|]. tauto.
Qed.

(** C6: [post_process_pleonastic_pronoun] returns, and its output holds
    exactly the mentions of the input that are neither an [it] whose
    2-token or 3-token right context exists and ends in [that], nor a
    [you] whose 1-token right context is [["know"]].  A context that runs
    past the end of the document is [None], and a mention whose contexts
    are [None] is kept. *)
Theorem post_process_pleonastic_pronoun_removes ms :
  exists out,
    post_process_pleonastic_pronoun ms = Some out
    /\ (forall m, In m out
                  <-> In m ms /\ ~ (pleonastic_it m \/ pleonastic_you m))
    /\ (forall m n,
           (List.length (skipn (Z.to_nat (sp_end (span m)))
                               (document_tokens m)) < n)%nat ->
           get_context m n = None)
    /\ (forall m, In m ms ->
                  get_context m 2 = None -> get_context m 3 = None ->
                  get_context m 1 = None -> In m out).
Proof.
  rewrite pleonastic_filter. eexists. split; [reflexivity|].
  assert (Hmem : forall m,
             In m (sorted mention_lt
                     (filter (fun m => negb (value_of pleonastic m)) ms))
             <-> In m ms /\ ~ (pleonastic_it m \/ pleonastic_you m)).
  { intros m. now rewrite sorted_filter_In, pleonastic_keep_iff. }
  split; [exact Hmem|]. split.
  - intros m n Hn. unfold get_context.
    destruct (n <=? _)%nat eqn:E; [|reflexivity].
    apply Nat.leb_le in E. lia.
  - intros m Hm H2 H3 H1. apply Hmem. split; [exact Hm|].
    unfold pleonastic_it, pleonastic_you, context_ends_in_that.
    intros [[_ [(c & Hc & _)|(c & Hc & _)]]|[_ Hc]]; congruence.
Qed.
End Selection.

Lemma filter_map_length {A B : Type} (f : A -> B) (p : B -> bool)
  (l : list A) :
  List.length (filter (fun x => p (f x)) l)
  = List.length (filter p (map f l)).
Proof.
  induction l as [|x l IH]; simpl; [reflexivity|].
  destruct (p (f x)); simpl; now rewrite IH.
Qed.

Lemma NoDup_map_filter (Elt Key : Type) (key : Elt -> Key)
  (keep : Elt -> bool) :
  forall selected : list Elt,
    NoDup (map key selected) -> NoDup (map key (filter keep selected)).
Proof.
  intros l. induction l as [|x l IH]; simpl; intros H; [constructor|].
  inversion H as [|? ? Hx Hl]; subst.
  destruct (keep x); simpl; [|now apply IH].
  constructor; [|now apply IH].
  intros Hin. apply Hx. apply in_map_iff in Hin as (y & E & Hy).
  apply in_map_iff. exists y. split; [exact E|].
  now apply filter_In in Hy.
Qed.

Section Grouping.
Context {Tree : Type} {PT : ParseTree Tree}.
Implicit Types (m a b r : Mention Tree) (ms : list (Mention Tree)).

Lemma pair_lt_false_iff r m :
  pair_lt (span_length r, r) (span_length m, m) = false <-> pair_le m r.
Proof.
  rewrite <- not_true_iff_false, pair_lt_iff. unfold pair_le, span_le.
  simpl. lia.
Qed.

(** What the same-head stage returns: the representatives in span order,
    with pairwise different head spans, one for every head span of the
    input, each a greatest mention of its group. *)
Lemma same_head_output ms :
  exists reps,
    post_process_same_head_largest_span ms = Some (sorted mention_lt reps)
    /\ NoDup (map head_span reps)
    /\ (forall h, In h (map head_span reps)
                  <-> exists m, In m ms /\ head_span m = h)
    /\ (forall r, In r reps ->
                  In r ms
                  /\ forall m, In m ms -> head_span m = head_span r ->
                               pair_le m r).
Proof.
  destruct (same_head_spec ms) as (reps & Hout & Hkeys & Hreps).
  exists reps. split; [exact Hout|]. rewrite Hkeys.
  split; [apply head_span_keys_NoDup|].
  split; [apply head_span_keys|].
  rewrite Forall_forall in Hreps. intros r Hr.
  destruct (Hreps r Hr) as [Hin Hmax]. split; [exact Hin|].
  intros m Hm Hh. now apply pair_lt_false_iff, Hmax.
Qed.

Lemma same_head_pair a b :
  head_span a = head_span b -> span_length a < span_length b ->
  post_process_same_head_largest_span [a; b] = Some [b]
  /\ post_process_same_head_largest_span [b; a] = Some [b].
Proof.
  intros Hh Hlen.
  assert (Hab : pair_lt (entry a) (entry b) = true).
  { apply pair_lt_iff. unfold entry. simpl. lia. }
  assert (Hba : pair_lt (entry b) (entry a) = false)
    by now apply pair_lt_asym.
  assert (Hrefl : span_eqb (head_span b) (head_span b) = true)
    by now apply span_eqb_eq.
  unfold post_process_same_head_largest_span, head_span_to_mention,
    largest_of, group_by.
  split; simpl; rewrite ?Hh, Hrefl; simpl; rewrite Hrefl; simpl;
    rewrite ?Hab, ?Hba; reflexivity.
Qed.

(** C3: [post_process_same_head_largest_span] returns; every mention of
    its output is a mention of the input that is greatest in its
    head-span group, in the lexicographic order on (span length, mention);
    the output holds exactly one mention for every head span of the
    input; and of two mentions that share a head span and have the span
    lengths 3 and 5 only the one of length 5 survives. *)
Theorem post_process_same_head_largest_span_keeps_largest ms :
  exists out,
    post_process_same_head_largest_span ms = Some out
    /\ (forall r, In r out ->
                  In r ms
                  /\ forall m, In m ms -> head_span m = head_span r ->
                               pair_le m r)
    /\ (forall m, In m ms ->
                  List.length
                    (filter (fun r => span_eqb (head_span r) (head_span m))
                            out)
                  = 1%nat)
    /\ (forall a b,
           head_span a = head_span b ->
           span_length a = 3 -> span_length b = 5 ->
           post_process_same_head_largest_span [a; b] = Some [b]
           /\ post_process_same_head_largest_span [b; a] = Some [b]).
Proof.
  destruct (same_head_output ms) as (reps & Hout & Hnd & Hall & Hmax).
  exists (sorted mention_lt reps). split; [exact Hout|]. split; [|split].
  - intros r Hr. apply Hmax. now apply sorted_In in Hr.
  - intros m Hm. rewrite sorted_filter_length.
    rewrite (filter_map_length head_span
               (fun h => span_eqb h (head_span m))).
    apply (filter_eqb_count span_eqb span_eqb_eq); [exact Hnd|].
    apply Hall. now exists m.
  - intros a b Hh Ha Hb. apply same_head_pair; [exact Hh|lia].
Qed.
End Grouping.

(** * Properties of all stages *)

Section Cascade.
Context {Tree : Type} {PT : ParseTree Tree}.
Implicit Types (m a d : Mention Tree) (ms : list (Mention Tree)).

(** A stage that selects by a test on the mention alone, run on its own
    output. *)
Lemma selection_twice (q : Mention Tree -> bool) ms :
  let out := sorted mention_lt (filter q ms) in
  sorted_by_span out /\ sorted mention_lt (filter q out) = out.
Proof.
  split; [apply sorted_mentions_by_span|apply sorted_filter_again].
Qed.

(** A stage whose test looks at the whole list, and selects no mention of
    its own output, run on its own output. *)
Lemma selection_in_context_twice
  (q : list (Mention Tree) -> Mention Tree -> bool) ms :
  (forall l m, In m (sorted mention_lt (filter (q ms) ms)) ->
               l = sorted mention_lt (filter (q ms) ms) -> q l m = true) ->
  let out := sorted mention_lt (filter (q ms) ms) in
  sorted_by_span out /\ sorted mention_lt (filter (q out) out) = out.
Proof.
  intros H out. split; [apply sorted_mentions_by_span|].
  rewrite filter_all.
  - apply sorted_by_span_fixed, sorted_mentions_by_span.
  - rewrite Forall_forall. intros m Hm. now apply H.
Qed.

Lemma well_formed_selection (q : Mention Tree -> bool) ms :
  Forall well_formed ms ->
  Forall well_formed (sorted mention_lt (filter q ms)).
Proof.
  intros H. apply sorted_Forall. rewrite Forall_forall in *.
  intros m Hm. apply H. now apply filter_In in Hm.
Qed.

(** C7: on a list of well-formed mentions every one of the seven stages
    returns a list in span order, and run on that list it returns the
    same list. *)
Theorem stages_sort_and_are_idempotent (stage : Stage) ms :
  Forall well_formed ms ->
  exists out,
    run_stage stage ms = Some out
    /\ sorted_by_span out
    /\ run_stage stage out = Some out.
Proof.
  intros Hwf. destruct stage; simpl.
  - rewrite (head_pos_filter Hwf). eexists. split; [reflexivity|].
    destruct (selection_twice (value_of head_pos_keep) ms) as [Hs Hi].
    split; [exact Hs|].
    rewrite head_pos_filter by now apply well_formed_selection.
    now rewrite Hi.
  - rewrite (nam_type_filter Hwf). eexists. split; [reflexivity|].
    destruct (selection_twice (value_of nam_type_keep) ms) as [Hs Hi].
    split; [exact Hs|].
    rewrite nam_type_filter by now apply well_formed_selection.
    now rewrite Hi.
  - eexists. split; [reflexivity|].
    destruct (selection_twice weird_keep ms) as [Hs Hi].
    unfold post_process_weird. split; [exact Hs|]. now rewrite Hi.
  - rewrite pleonastic_filter. eexists. split; [reflexivity|].
    destruct (selection_twice (fun m => negb (value_of pleonastic m)) ms)
      as [Hs Hi].
    split; [exact Hs|]. rewrite pleonastic_filter. now rewrite Hi.
  - destruct (same_head_output ms) as (reps & Hout & Hnd & _).
    rewrite Hout. eexists. split; [reflexivity|].
    split; [apply sorted_mentions_by_span|].
    rewrite same_head_distinct.
    + f_equal. apply sorted_by_span_fixed, sorted_mentions_by_span.
    + apply (Permutation_NoDup (l := map head_span reps)); [|exact Hnd].
      apply Permutation_map. symmetry. apply sorted_Permutation.
  - rewrite embedded_head_filter. eexists. split; [reflexivity|].
    destruct (selection_in_context_twice
                (fun l m => negb (head_embedded l m)) ms) as [Hs Hi].
    + intros l m Hm ->. apply negb_true_iff, not_true_iff_false.
      rewrite head_embedded_iff. intros (a & Ha & Hemb).
      apply sorted_filter_In in Hm as [_ Hm].
      apply negb_true_iff, not_true_iff_false in Hm. apply Hm.
      apply head_embedded_iff. exists a. split; [|exact Hemb].
      now apply sorted_filter_In in Ha.
    + split; [exact Hs|]. rewrite embedded_head_filter. now rewrite Hi.
  - eexists. split; [reflexivity|]. rewrite !appositions_filter.
    destruct (selection_in_context_twice
                (fun l m => (type m =? "PRO")%string
                            || negb (embedded_in_appo l m)) ms)
      as [Hs Hi].
    + intros l m Hm ->. apply appositions_keep_iff.
      intros (Hpro & a & Ha & Hemb).
      apply sorted_filter_In in Hm as [_ Hm].
      apply appositions_keep_iff in Hm. apply Hm.
      split; [exact Hpro|]. exists a. split; [|exact Hemb].
      now apply sorted_filter_In in Ha.
    + split; [exact Hs|]. now rewrite Hi.
Qed.
End Cascade.

Lemma mapM_inv {A B : Type} (f : A -> option B) (l : list A) (r : list B) :
  mapM f l = Some r -> Forall2 (fun x y => f x = Some y) l r.
Proof.
  revert r. induction l as [|x l IH]; simpl; intros r.
  - intros [= <-]. constructor.
  - destruct (f x) as [y|] eqn:Ey; [|discriminate]. simpl.
    destruct (mapM f l) as [r'|]; [|discriminate]. simpl.
    intros [= <-]. constructor; [exact Ey|now apply IH].
Qed.

Section Dummy.
Context {Tree : Type} {PT : ParseTree Tree}.
Implicit Types (m a d : Mention Tree) (ms : list (Mention Tree)).



End Dummy.

(** * Extraction *)

Section Extraction.
Context {Tree : Type} {PT : ParseTree Tree}.
Implicit Types (d : Document Tree) (out : list (Mention Tree)).

Lemma from_document_span (s : Span) d (m : Mention Tree) :
  from_document s d = Some m -> span m = s /\ is_dummy m = false.
Proof.
  unfold from_document. destruct (_ && _); [|discriminate].
  intros [= <-]. now split.
Qed.

(** What extraction returns: the dummy of the document, then the mention
    of every annotated span, in the order of the document. *)
Lemma extract_system_mentions_inv d (b : bool) out :
  extract_system_mentions d b = Some out ->
  exists rest,
    out = dummy_from_document d :: rest
    /\ Forall2 (fun s m => from_document s d = Some m)
               (annotated_mentions d) rest
    /\ map span rest = annotated_mentions d
    /\ Forall (fun m => is_dummy m = false) rest.
Proof.
  unfold extract_system_mentions.
  destruct (mapM _ _) as [rest|] eqn:E; [|discriminate]. simpl.
  intros [= <-]. exists rest. split; [reflexivity|].
  apply mapM_inv in E. split; [exact E|].
  induction E as [|s m l rest Hm _ [IH1 IH2]]; simpl.
  - split; constructor.
  - apply from_document_span in Hm as [Hs Hd].
    split; [now rewrite Hs, IH1|now constructor].
Qed.

(** Extraction returns when every annotated span lies within the
    document. *)
Lemma extract_system_mentions_returns d (b : bool) :
  Forall (fun s => 0 <= sp_begin s
                   /\ sp_end s <= Z.of_nat (List.length (doc_tokens d)))
         (annotated_mentions d) ->
  exists out, extract_system_mentions d b = Some out.
Proof.
  intros H. unfold extract_system_mentions.
  rewrite (mapM_map _ (fun s => build_mention false s d)); [simpl; eauto|].
  rewrite Forall_forall in H. intros s Hs. unfold from_document.
  destruct (H s Hs) as [H0 H1].
  apply Z.leb_le in H0, H1. now rewrite H0, H1.
Qed.

(** The mentions after the dummy are in span order when the annotated
    mentions of the document are. *)
Lemma extract_system_mentions_sorted_input d (b : bool) out :
  StronglySorted span_le (annotated_mentions d) ->
  extract_system_mentions d b = Some out ->
  sorted_by_span (tl out).
Proof.
  intros Hs Hout.
  apply extract_system_mentions_inv in Hout
    as (rest & -> & _ & Hspans & _).
  simpl. unfold sorted_by_span. rewrite <- Hspans in Hs. clear Hspans.
  induction rest as [|m rest IH]; [constructor|].
  simpl in Hs. apply StronglySorted_inv in Hs as [Hs Hm].
  constructor; [now apply IH|].
  rewrite Forall_forall in *. intros x Hx. apply Hm. now apply in_map.
Qed.

(** C10: the flag [filter_mentions] does not change what
    [extract_system_mentions] returns, and no filter is run: whenever
    extraction returns, its result holds one mention more than the
    document has annotated mentions, and after the first one their spans
    are the annotated spans in the order of the document. *)
Theorem filter_mentions_is_ignored d :
  extract_system_mentions d true = extract_system_mentions d false
  /\ forall (b : bool) out,
       extract_system_mentions d b = Some out ->
       List.length out = S (List.length (annotated_mentions d))
       /\ map span (tl out) = annotated_mentions d.
Proof.
  split; [reflexivity|]. intros b out Hout.
  apply extract_system_mentions_inv in Hout
    as (rest & -> & _ & Hspans & _).
  simpl. split; [|exact Hspans].
  now rewrite <- Hspans, length_map.
Qed.
End Extraction.

(** * The properties on sample data *)

(** C2, where the code departs from it: the mentions of a document whose
    annotated mentions are not in span order come out in the order of the
    document, the dummy first, and not in span order. *)
Theorem extract_system_mentions_keeps_document_order :
  exists out,
    extract_system_mentions unsorted_document true = Some out
    /\ map is_dummy out = [true; false; false]
    /\ map span (tl out) = [mkSpan 2 3; mkSpan 0 1]
    /\ ~ sorted_by_span (tl out).
Proof.
  eexists. split; [reflexivity|]. split; [reflexivity|].
  split; [reflexivity|].
  intros H. apply StronglySorted_inv in H as [_ H].
  apply Forall_inv in H. unfold span_le in H. simpl in H. lia.
Qed.

Lemma extract_system_mentions_sorted_sample :
  exists out,
    extract_system_mentions sorted_document true = Some out
    /\ map is_dummy out = [true; false; false; false]
    /\ sorted_by_span (tl out).
Proof.
  eexists. split; [reflexivity|]. split; [reflexivity|].
  apply (extract_system_mentions_sorted_input sorted_document true);
    [|reflexivity].
  simpl. unfold span_le.
  repeat constructor; simpl; lia.
Qed.

Lemma filter_mentions_is_ignored_witness :
  extract_system_mentions sorted_document true
  = extract_system_mentions sorted_document false
  /\ exists out,
       extract_system_mentions sorted_document true = Some out
       /\ List.length out = 4%nat
       /\ map span (tl out) = [mkSpan 0 1; mkSpan 0 2; mkSpan 2 3].
Proof.
  destruct (filter_mentions_is_ignored sorted_document) as [Heq Hall].
  split; [exact Heq|].
  eexists. split; [reflexivity|].
  exact (Hall true _ eq_refl).
Defined.


Lemma post_process_by_head_pos_witness :
  Forall well_formed [m_happy; m_dog]
  /\ exists out,
       post_process_by_head_pos [m_happy; m_dog] = Some out
       /\ ~ In m_happy out /\ In m_dog out.
Proof.
  assert (Hwf : Forall well_formed [m_happy; m_dog])
    by (repeat constructor; simpl; lia).
  split; [exact Hwf|].
  destruct (post_process_by_head_pos_removes_adjectival_heads Hwf)
    as (out & Hout & _ & Hjj & Hnn).
  exists out. split; [exact Hout|]. split.
  - apply Hjj; [now left|reflexivity].
  - apply Hnn; [right; now left|reflexivity].
Defined.

Lemma post_process_weird_witness :
  In m_us (post_process_weird [m_um; m_US; m_us])
  /\ ~ In m_um (post_process_weird [m_um; m_US; m_us])
  /\ ~ In m_US (post_process_weird [m_um; m_US; m_us]).
Proof.
  split; [|split].
  - destruct (post_process_weird_removes_fixed_phrases
                [m_um; m_US; m_us] m_us) as [_ Hus].
    apply Hus; [right; right; now left|reflexivity].
  - destruct (post_process_weird_removes_fixed_phrases
                [m_um; m_US; m_us] m_um) as [Hmem _].
    intros H. apply Hmem in H as [_ H].
    apply H. left. right. right. right. now left.
  - destruct (post_process_weird_removes_fixed_phrases
                [m_um; m_US; m_us] m_US) as [Hmem _].
    intros H. apply Hmem in H as [_ H].
    apply H. right. now left.
Defined.

Lemma post_process_embedded_head_largest_span_witness :
  exists out,
    post_process_embedded_head_largest_span [m_narrow_head; m_wide_head]
    = Some out
    /\ In m_wide_head out /\ ~ In m_narrow_head out.
Proof.
  destruct (post_process_embedded_head_largest_span_removes
              [m_narrow_head; m_wide_head]) as (out & Hout & Hmem).
  exists out. split; [exact Hout|]. split.
  - apply Hmem. split; [right; now left|].
    intros (a & [<-|[<-|[]]] & _ & Hlt); simpl in Hlt; lia.
  - intros H. apply Hmem in H as [_ H]. apply H.
    exists m_wide_head. split; [right; now left|]. simpl. lia.
Defined.

Lemma post_process_appositions_witness :
  In m_appo (post_process_appositions [m_he; m_the_ceo; m_appo])
  /\ In m_he (post_process_appositions [m_he; m_the_ceo; m_appo])
  /\ ~ In m_the_ceo (post_process_appositions [m_he; m_the_ceo; m_appo]).
Proof.
  split; [|split].
  - destruct (post_process_appositions_removes
                [m_he; m_the_ceo; m_appo] m_appo) as [Hmem _].
    apply Hmem. split; [right; right; now left|].
    intros (_ & a & [<-|[<-|[<-|[]]]] & Happ & Hemb & _); discriminate.
  - destruct (post_process_appositions_removes
                [m_he; m_the_ceo; m_appo] m_he) as [_ Hpro].
    apply Hpro; [now left|reflexivity].
  - destruct (post_process_appositions_removes
                [m_he; m_the_ceo; m_appo] m_the_ceo) as [Hmem _].
    intros H. apply Hmem in H as [_ H].
    apply H. split; [discriminate|].
    exists m_appo. split; [right; right; now left|].
    repeat split; try reflexivity; [discriminate|now left].
Defined.

Lemma post_process_pleonastic_pronoun_witness :
  exists out,
    post_process_pleonastic_pronoun [m_it; m_you; m_it_last] = Some out
    /\ ~ In m_it out /\ ~ In m_you out /\ In m_it_last out.
Proof.
  destruct (post_process_pleonastic_pronoun_removes [m_it; m_you; m_it_last])
    as (out & Hout & Hmem & _ & Hnone).
  exists out. split; [exact Hout|]. split; [|split].
  - intros H. apply Hmem in H as [_ H]. apply H. left.
    split; [reflexivity|]. right.
    exists ["seems"; "clear"; "that"]. now split.
  - intros H. apply Hmem in H as [_ H]. apply H. right.
    split; reflexivity.
  - apply Hnone; [right; right; now left|reflexivity..].
Defined.

Lemma post_process_same_head_largest_span_witness :
  post_process_same_head_largest_span [m_three; m_five] = Some [m_five]
  /\ post_process_same_head_largest_span [m_five; m_three] = Some [m_five].
Proof.
  destruct (post_process_same_head_largest_span_keeps_largest
              [m_three; m_five]) as (out & _ & _ & _ & Hpair).
  apply (Hpair m_three m_five); reflexivity.
Defined.

Lemma stages_sort_and_are_idempotent_witness :
  Forall
    (fun stage =>
       exists out,
         run_stage stage [m_dog; m_happy; m_five; m_three] = Some out
         /\ sorted_by_span out
         /\ run_stage stage out = Some out)
    all_stages.
Proof.
  apply Forall_forall. intros stage _.
  apply stages_sort_and_are_idempotent.
  repeat constructor; simpl; lia.
Defined.

(** * Further properties of [sorted] *)

Section StableSort.
Variable A : Type.
Variable lt : A -> A -> bool.
Hypothesis lt_asym : forall a b, lt a b = true -> lt b a = false.
Hypothesis le_trans : forall a b c,
  le_of lt a b -> le_of lt b c -> le_of lt a c.

Lemma insert_least x l :
  (forall y, In y l -> lt y x = false) -> insert lt x l = x :: l.
Proof.
  destruct l as [|y l]; simpl; intros H; [reflexivity|].
  now rewrite (H y) by now left.
Qed.

(** Selecting from a sorted list and sorting the selection give the same
    list: the sort is stable. *)
Lemma filter_insert (p : A -> bool) x l :
  StronglySorted (le_of lt) l ->
  filter p (insert lt x l)
  = if p x then insert lt x (filter p l) else filter p l.
Proof.
  induction 1 as [|y l Hl IH Hy].
  - simpl. now destruct (p x).
  - cbn [insert]. destruct (lt y x) eqn:Hyx.
    + cbn [filter]. rewrite IH.
      destruct (p y), (p x); cbn [insert]; rewrite ?Hyx; reflexivity.
    + change (filter p (x :: y :: l))
        with (if p x then x :: filter p (y :: l) else filter p (y :: l)).
      destruct (p x); [|reflexivity].
      rewrite insert_least; [reflexivity|].
      intros z Hz. apply filter_In in Hz as [Hz _].
      destruct Hz as [<-|Hz]; [exact Hyx|].
      rewrite Forall_forall in Hy.
      apply (le_trans (b := y)); [exact Hyx|now apply Hy].
Qed.

Lemma filter_sorted (p : A -> bool) l :
  filter p (sorted lt l) = sorted lt (filter p l).
Proof.
  induction l as [|x l IH]; simpl; [reflexivity|].
  rewrite filter_insert
    by (apply sorted_StronglySorted; assumption).
  rewrite IH. now destruct (p x).
Qed.

(** The last element after inserting: the new element when everything is
    strictly below it, the old last element otherwise. *)
Lemma py_last_cons (y : A) l : l <> [] -> py_last (y :: l) = py_last l.
Proof. destruct l; [congruence|reflexivity]. Qed.

Lemma insert_not_nil x l : insert lt x l <> [].
Proof. destruct l as [|y l]; simpl; [|destruct (lt y x)]; discriminate. Qed.

Lemma py_last_insert x l :
  py_last (insert lt x l)
  = if forallb (fun y => lt y x) l then Some x else py_last l.
Proof.
  induction l as [|y l IH]; [reflexivity|].
  cbn [insert forallb]. destruct (lt y x) eqn:Hyx; cbn [andb].
  - rewrite py_last_cons by apply insert_not_nil. rewrite IH.
    destruct (forallb (fun y => lt y x) l) eqn:Hall; [reflexivity|].
    destruct l as [|z l]; [discriminate|reflexivity].
  - reflexivity.
Qed.

(** The last element of the sorted list stands in the list after every
    element that is not below it and before elements strictly below it
    only: among the greatest elements it is the last one. *)
Lemma py_last_sorted_position l x :
  py_last (sorted lt l) = Some x ->
  exists l1 l2,
    l = l1 ++ x :: l2
    /\ (forall y, In y l1 -> lt x y = false)
    /\ (forall y, In y l2 -> lt y x = true).
Proof.
  revert x. induction l as [|a l IH]; intros x; [discriminate|].
  cbn [sorted fold_right]. fold (sorted lt l). rewrite py_last_insert.
  destruct (forallb (fun y => lt y a) (sorted lt l)) eqn:Hall.
  - intros [= <-]. exists [], l. split; [reflexivity|].
    split; [intros y []|].
    intros y Hy. rewrite forallb_forall in Hall.
    now apply Hall, sorted_In.
  - intros Hx. destruct (IH x Hx) as (l1 & l2 & -> & H1 & H2).
    exists (a :: l1), l2. split; [reflexivity|]. split; [|exact H2].
    intros y [<-|Hy]; [|now apply H1].
    assert (Hex : exists y0, In y0 (sorted lt (l1 ++ x :: l2))
                             /\ lt y0 a = false).
    { clear -Hall. induction (sorted lt (l1 ++ x :: l2)) as [|z s IHs];
        [discriminate|].
      simpl in Hall. destruct (lt z a) eqn:Hz.
      - destruct (IHs Hall) as (y0 & Hy0 & Hlt).
        exists y0. split; [now right|exact Hlt].
      - exists z. split; [now left|exact Hz]. }
    destruct Hex as (y0 & Hy0 & Hlt).
    apply (le_trans (b := y0)); [exact Hlt|].
    apply (@py_last_greatest _ lt lt_asym (sorted lt (l1 ++ x :: l2)) x y0);
      [now apply sorted_StronglySorted|exact Hx|exact Hy0].
Qed.
End StableSort.

(** * Error behaviour of the two stages that index by [head_index] *)

Lemma filterM_inv {A : Type} (p : A -> option bool) (l r : list A) :
  filterM p l = Some r ->
  (forall x, In x l -> exists b, p x = Some b)
  /\ r = filter (value_of p) l.
Proof.
  revert r. induction l as [|x l IH]; simpl; intros r.
  - intros [= <-]. split; [intros x []|reflexivity].
  - destruct (p x) as [b|] eqn:Ex; [|discriminate]. simpl.
    destruct (filterM p l) as [r'|]; [|discriminate]. simpl.
    intros [= <-]. destruct (IH r' eq_refl) as [Hall ->]. split.
    + intros y [<-|Hy]; [now exists b|now apply Hall].
    + assert (Hv : value_of p x = b) by (unfold value_of; now rewrite Ex).
      cbn [filter]. now rewrite Hv.
Qed.

Lemma filterM_None_iff {A : Type} (p : A -> option bool) (l : list A) :
  filterM p l = None <-> exists x, In x l /\ p x = None.
Proof.
  induction l as [|x l IH]; simpl.
  - split; [discriminate|intros (x & [] & _)].
  - destruct (p x) as [b|] eqn:Ex; simpl.
    + destruct (filterM p l) as [r|]; simpl.
      * split; [discriminate|].
        intros (y & [<-|Hy] & Hn); [congruence|].
        destruct IH as [_ IH]. discriminate IH. now exists y.
      * split; [intros _|reflexivity].
        destruct IH as [IH _]. destruct (IH eq_refl) as (y & Hy & Hn).
        exists y. split; [now right|exact Hn].
    + split; [intros _|reflexivity]. exists x. split; [now left|exact Ex].
Qed.

(** [l[i]] raises exactly for an index outside [-len(l) .. len(l) - 1]. *)
Lemma py_index_None_iff {A : Type} (l : list A) (i : Z) :
  py_index l i = None
  <-> i < - Z.of_nat (List.length l) \/ Z.of_nat (List.length l) <= i.
Proof.
  unfold py_index. cbv zeta.
  destruct ((0 <=? i) && (i <? Z.of_nat (List.length l))) eqn:E1.
  - apply andb_true_iff in E1 as [H1 H2].
    apply Z.leb_le in H1. apply Z.ltb_lt in H2.
    rewrite nth_error_None. lia.
  - destruct ((- Z.of_nat (List.length l) <=? i) && (i <? 0)) eqn:E2.
    + apply andb_true_iff in E2 as [H1 H2].
      apply Z.leb_le in H1. apply Z.ltb_lt in H2.
      rewrite nth_error_None. lia.
    + split; [intros _|reflexivity].
      apply andb_false_iff in E1, E2.
      rewrite !Z.leb_gt, !Z.ltb_ge in *. lia.
Qed.

Section IndexErrors.
Context {Tree : Type} {PT : ParseTree Tree}.
Implicit Types (m : Mention Tree) (ms out : list (Mention Tree)).

Lemma head_pos_keep_value m (b : bool) :
  head_pos_keep m = Some b -> (b = true <-> ~ adjectival_head m).
Proof.
  unfold head_pos_keep, adjectival_head.
  destruct (py_index (pos m) (head_index m)) as [tag|]; [|discriminate].
  cbn [bind]. intros [= <-].
  rewrite negb_true_iff, <- not_true_iff_false, re_match_JJ_iff. split.
  - intros H (tag' & [= <-] & Hj). contradiction.
  - intros H Hj. apply H. now exists tag.
Qed.

Lemma head_pos_keep_None m :
  head_pos_keep m = None <-> py_index (pos m) (head_index m) = None.
Proof.
  unfold head_pos_keep.
  destruct (py_index (pos m) (head_index m)); cbn [bind];
    split; (discriminate || reflexivity).
Qed.

Lemma nam_type_keep_value m (b : bool) :
  nam_type_keep m = Some b -> (b = true <-> ~ excluded_name m).
Proof.
  unfold nam_type_keep, excluded_name.
  destruct (String.eqb_spec (type m) "NAM") as [E|N]; cbn [negb].
  - destruct (py_index (ner m) (head_index m)) as [tag|]; [|discriminate].
    cbn [bind]. intros Hb.
    apply (f_equal (fun o => match o with Some x => x | None => b end)) in Hb.
    cbv beta iota in Hb. rewrite <- Hb.
    rewrite negb_true_iff, <- not_true_iff_false, str_in_iff. split.
    + intros H (_ & tag' & [= <-] & Hin). contradiction.
    + intros H Hin. apply H. split; [exact E|]. now exists tag.
  - intros [= <-]. split; [|reflexivity]. intros _ [E _]. contradiction.
Qed.

Lemma nam_type_keep_None m :
  nam_type_keep m = None
  <-> type m = "NAM" /\ py_index (ner m) (head_index m) = None.
Proof.
  unfold nam_type_keep.
  destruct (String.eqb_spec (type m) "NAM") as [E|N]; cbn [negb].
  - destruct (py_index (ner m) (head_index m)); cbn [bind].
    + split; [discriminate|intros [_ [=]]].
    + split; [now split|reflexivity].
  - split; [discriminate|intros [E _]; contradiction].
Qed.

Lemma comprehension_inv (p : Mention Tree -> option bool) ms out :
  (kept <- filterM p ms ;; Some (sorted mention_lt kept)) = Some out ->
  (forall m, In m ms -> exists b, p m = Some b)
  /\ out = sorted mention_lt (filter (value_of p) ms).
Proof.
  destruct (filterM p ms) as [kept|] eqn:E; [|discriminate].
  cbn [bind]. intros [= <-].
  apply filterM_inv in E as [Hall ->]. now split.
Qed.

Lemma comprehension_None (p : Mention Tree -> option bool) ms :
  (kept <- filterM p ms ;; Some (sorted mention_lt kept)) = None
  <-> exists m, In m ms /\ p m = None.
Proof.
  rewrite <- filterM_None_iff.
  destruct (filterM p ms); cbn [bind]; split; (discriminate || reflexivity).
Qed.

(** X1: [post_process_by_head_pos] raises exactly when the head index of
    some mention lies outside [pos], counting Python's negative indices as
    inside; whenever it returns, its output holds exactly the mentions of
    the input whose head tag does not begin with [JJ]. *)
Theorem post_process_by_head_pos_raises_or_selects ms :
  (post_process_by_head_pos ms = None
   <-> exists m, In m ms
                 /\ (head_index m < - Z.of_nat (List.length (pos m))
                     \/ Z.of_nat (List.length (pos m)) <= head_index m))
  /\ (forall out,
         post_process_by_head_pos ms = Some out ->
         forall m, In m out <-> In m ms /\ ~ adjectival_head m).
Proof.
  unfold post_process_by_head_pos. split.
  - rewrite comprehension_None.
    split; intros (m & Hm & H); exists m; (split; [exact Hm|]).
    + now apply py_index_None_iff, head_pos_keep_None.
    + now apply head_pos_keep_None, py_index_None_iff.
  - intros out Hout m.
    apply comprehension_inv in Hout as [Hall ->].
    rewrite sorted_In, filter_In.
    split; intros [Hm H]; (split; [exact Hm|]);
      destruct (Hall m Hm) as [b Hb];
      unfold value_of in *; rewrite Hb in *;
      now apply (head_pos_keep_value m Hb).
Qed.

(** X2: [post_process_by_nam_type] raises exactly when the head index of
    some proper name lies outside [ner]; the head index of other mentions is
    never looked up. Whenever it returns, its output holds exactly the
    mentions of the input that are not proper names with a head of one of
    the five numeric entity types; in particular every other mention stays. *)
Theorem post_process_by_nam_type_raises_or_selects ms :
  (post_process_by_nam_type ms = None
   <-> exists m, In m ms /\ type m = "NAM"
                 /\ (head_index m < - Z.of_nat (List.length (ner m))
                     \/ Z.of_nat (List.length (ner m)) <= head_index m))
  /\ (forall out,
         post_process_by_nam_type ms = Some out ->
         (forall m, In m out <-> In m ms /\ ~ excluded_name m)
         /\ (forall m, In m ms -> type m <> "NAM" -> In m out)).
Proof.
  unfold post_process_by_nam_type. split.
  - rewrite comprehension_None.
    split; intros (m & Hm & H); exists m; (split; [exact Hm|]).
    + apply nam_type_keep_None in H as [E H].
      split; [exact E|now apply py_index_None_iff].
    + destruct H as [E H].
      apply nam_type_keep_None. split; [exact E|].
      now apply py_index_None_iff.
  - intros out Hout. apply comprehension_inv in Hout as [Hall ->].
    assert (Hmem : forall m,
               In m (sorted mention_lt (filter (value_of nam_type_keep) ms))
               <-> In m ms /\ ~ excluded_name m).
    { intros m. rewrite sorted_In, filter_In.
      split; intros [Hm H]; (split; [exact Hm|]);
        destruct (Hall m Hm) as [b Hb];
        unfold value_of in *; rewrite Hb in *;
        now apply (nam_type_keep_value m Hb). }
    split; [exact Hmem|].
    intros m Hm Hty. apply Hmem. split; [exact Hm|].
    intros [E _]. contradiction.
Qed.
End IndexErrors.

(** * What every stage does to its input *)

Lemma filter_length_bound {A : Type} (p : A -> bool) (l : list A) :
  (List.length (filter p l) <= List.length l)%nat.
Proof.
  induction l as [|x l IH]; simpl; [lia|]. destruct (p x); simpl; lia.
Qed.

Lemma dict_append_length {K V : Type} (eqb : K -> K -> bool)
  (d : dict K V) (k : K) (v : V) :
  (List.length (dict_append eqb d k v) <= S (List.length d))%nat.
Proof.
  induction d as [|[k' l] d IH]; simpl; [lia|].
  destruct (eqb k' k); simpl; lia.
Qed.

Lemma group_by_length {K V E : Type} (eqb : K -> K -> bool)
  (key : E -> K) (val : E -> V) (l : list E) (d : dict K V) :
  (List.length (group_by eqb key val l d)
   <= List.length d + List.length l)%nat.
Proof.
  revert d. induction l as [|x l IH]; intros d; simpl; [lia|].
  change (group_by eqb key val (x :: l) d)
    with (group_by eqb key val l (dict_append eqb d (key x) (val x))).
  specialize (IH (dict_append eqb d (key x) (val x))).
  assert (H := dict_append_length eqb d (key x) (val x)). lia.
Qed.

Section EveryStage.
Context {Tree : Type} {PT : ParseTree Tree}.
Implicit Types (m a : Mention Tree) (ms out : list (Mention Tree)).

(** The six stages that select by a test, on a list of well-formed
    mentions. *)
Lemma stage_selection (stage : Stage) ms :
  Forall well_formed ms -> stage <> SameHeadLargestSpan ->
  run_stage stage ms
  = Some (sorted mention_lt (filter (stage_test stage ms) ms))
  /\ forall m, In m ms ->
               (stage_test stage ms m = true <-> passes stage ms m).
Proof.
  intros Hwf Hst. rewrite Forall_forall in Hwf.
  destruct stage; simpl; try contradiction.
  - split; [apply head_pos_filter; now apply Forall_forall|].
    intros m Hm. now apply head_pos_keep_iff, Hwf.
  - split; [apply nam_type_filter; now apply Forall_forall|].
    intros m Hm. now apply nam_type_keep_iff, Hwf.
  - split; [reflexivity|]. intros m _. apply weird_keep_iff.
  - split; [apply pleonastic_filter|]. intros m _.
    apply pleonastic_keep_iff.
  - split; [apply embedded_head_filter|]. intros m _.
    now rewrite negb_true_iff, <- not_true_iff_false, head_embedded_iff.
  - split; [now rewrite appositions_filter|]. intros m _.
    apply appositions_keep_iff.
Qed.

Lemma selection_bounds (q : Mention Tree -> bool) ms :
  incl (sorted mention_lt (filter q ms)) ms
  /\ (List.length (sorted mention_lt (filter q ms)) <= List.length ms)%nat.
Proof.
  split.
  - intros m Hm. now apply sorted_filter_In in Hm.
  - rewrite (Permutation_length (sorted_Permutation mention_lt _)).
    apply filter_length_bound.
Qed.

(** X3: Whenever a stage returns, every mention of its output is a mention
    of its input, and the output is not longer than the input: no stage
    introduces a mention. *)
Theorem stages_only_remove (stage : Stage) ms out :
  run_stage stage ms = Some out ->
  incl out ms /\ (List.length out <= List.length ms)%nat.
Proof.
  destruct stage; simpl.
  - unfold post_process_by_head_pos. intros H.
    apply comprehension_inv in H as [_ ->]. apply selection_bounds.
  - unfold post_process_by_nam_type. intros H.
    apply comprehension_inv in H as [_ ->]. apply selection_bounds.
  - intros [= <-]. apply selection_bounds.
  - rewrite pleonastic_filter. intros [= <-]. apply selection_bounds.
  - destruct (same_head_spec ms) as (reps & Hout & Hkeys & Hreps).
    rewrite Hout. intros [= <-]. split.
    + intros m Hm. apply sorted_In in Hm.
      rewrite Forall_forall in Hreps. now apply Hreps.
    + rewrite (Permutation_length (sorted_Permutation mention_lt _)).
      rewrite <- (length_map head_span reps), Hkeys.
      unfold dict_keys. rewrite length_map.
      unfold head_span_to_mention.
      assert (H := group_by_length span_eqb (@head_span Tree) entry ms []).
      simpl in H. exact H.
  - rewrite embedded_head_filter. intros [= <-]. apply selection_bounds.
  - rewrite appositions_filter. intros [= <-]. apply selection_bounds.
Qed.

(** X4: A stage that finds nothing to remove only sorts: the six stages that
    select by a test when every mention passes the test, the same-head stage
    when no two mentions share a head span. *)
Theorem stage_with_nothing_to_remove_sorts (stage : Stage) ms :
  Forall well_formed ms ->
  (stage <> SameHeadLargestSpan -> forall m, In m ms -> passes stage ms m) ->
  (stage = SameHeadLargestSpan -> NoDup (map head_span ms)) ->
  run_stage stage ms = Some (sorted mention_lt ms).
Proof.
  intros Hwf Hpass Hdistinct.
  assert (Hsel : stage <> SameHeadLargestSpan ->
                 run_stage stage ms = Some (sorted mention_lt ms)).
  { intros Hst. destruct (stage_selection Hwf Hst) as [-> Htest].
    rewrite filter_all; [reflexivity|].
    rewrite Forall_forall. intros m Hm.
    apply Htest; [exact Hm|now apply Hpass]. }
  destruct stage; try (apply Hsel; discriminate).
  simpl. apply same_head_distinct. now apply Hdistinct.
Qed.
End EveryStage.

(** * The dummy mention in every stage *)

Section DummyInEveryStage.
Context {Tree : Type} {PT : ParseTree Tree}.
Implicit Types (m a d : Mention Tree) (ms out : list (Mention Tree)).




End DummyInEveryStage.

(** * The order of the input and the order of the stages *)

Lemma existsb_Permutation {A : Type} (p : A -> bool) (l l' : list A) :
  Permutation l l' -> existsb p l = existsb p l'.
Proof.
  induction 1 as [|x l l' _ IH|x y l|l l' l'' _ IH1 _ IH2]; simpl.
  - reflexivity.
  - now rewrite IH.
  - now destruct (p x), (p y).
  - now rewrite IH1.
Qed.

Lemma span_le_antisym (s t : Span) : span_le s t -> span_le t s -> s = t.
Proof.
  destruct s as [b1 e1], t as [b2 e2]. unfold span_le. simpl.
  intros H1 H2. assert (b1 = b2) by lia. assert (e1 = e2) by lia.
  now subst.
Qed.

(** Two lists of spans in span order with the same elements are equal. *)
Lemma sorted_spans_unique (l l' : list Span) :
  StronglySorted span_le l -> StronglySorted span_le l' ->
  Permutation l l' -> l = l'.
Proof.
  intros Hl. revert l'. induction Hl as [|s l Hl IH Hs]; intros l' Hl' Hp.
  - now apply Permutation_nil in Hp.
  - destruct Hl' as [|t l' Hl' Ht].
    + apply Permutation_sym, Permutation_nil in Hp. discriminate.
    + assert (Est : s = t).
      { rewrite Forall_forall in Hs, Ht.
        assert (H1 : In s (t :: l'))
          by (apply (Permutation_in _ Hp); now left).
        assert (H2 : In t (s :: l))
          by (apply (Permutation_in _ (Permutation_sym Hp)); now left).
        destruct H1 as [->|H1]; [reflexivity|].
        destruct H2 as [->|H2]; [reflexivity|].
        apply span_le_antisym; [now apply Hs|now apply Ht]. }
      subst t. f_equal. apply IH; [exact Hl'|].
      now apply Permutation_cons_inv in Hp.
Qed.

Section Orders.
Context {Tree : Type} {PT : ParseTree Tree}.
Implicit Types (m a : Mention Tree) (ms out : list (Mention Tree)).

Lemma sorted_by_span_spans ms :
  sorted_by_span ms -> StronglySorted span_le (map span ms).
Proof.
  induction 1 as [|m ms _ IH Hm]; simpl; constructor; [exact IH|].
  rewrite Forall_forall in *. intros s Hs.
  apply in_map_iff in Hs as (a & <- & Ha). now apply Hm.
Qed.

Lemma stage_test_Permutation (stage : Stage) ms ms' m :
  Permutation ms ms' -> stage_test stage ms m = stage_test stage ms' m.
Proof.
  intros Hp. destruct stage; simpl; try reflexivity.
  - unfold head_embedded. now rewrite (existsb_Permutation _ Hp).
  - unfold embedded_in_appo. now rewrite (existsb_Permutation _ Hp).
Qed.

(** X5: The six stages that select by a test do not depend on the order of
    their input: on a rearranged list of well-formed mentions they return
    the same mentions, and the same sequence of spans. *)
Theorem stage_output_ignores_input_order (stage : Stage) ms ms' :
  Forall well_formed ms -> Permutation ms ms' ->
  stage <> SameHeadLargestSpan ->
  exists out out',
    run_stage stage ms = Some out
    /\ run_stage stage ms' = Some out'
    /\ Permutation out out'
    /\ map span out = map span out'.
Proof.
  intros Hwf Hp Hst.
  assert (Hwf' : Forall well_formed ms').
  { rewrite Forall_forall in *. intros m Hm. apply Hwf.
    now apply (Permutation_in _ (Permutation_sym Hp)). }
  destruct (stage_selection Hwf Hst) as [Hout _].
  destruct (stage_selection Hwf' Hst) as [Hout' _].
  do 2 eexists. split; [exact Hout|]. split; [exact Hout'|].
  assert (Hperm : Permutation
                    (sorted mention_lt (filter (stage_test stage ms) ms))
                    (sorted mention_lt (filter (stage_test stage ms') ms'))).
  { rewrite !sorted_Permutation.
    rewrite (filter_ext _ _ (fun m => stage_test_Permutation stage m Hp)).
    now apply filter_Permutation. }
  split; [exact Hperm|].
  apply sorted_spans_unique.
  - apply sorted_by_span_spans, sorted_mentions_by_span.
  - apply sorted_by_span_spans, sorted_mentions_by_span.
  - now apply Permutation_map.
Qed.

Lemma single_stage_test (stage : Stage) ms ms' m :
  In stage [ByHeadPos; ByNamType; Weird; PleonasticPronoun] ->
  stage_test stage ms m = stage_test stage ms' m
  /\ (passes stage ms m <-> passes stage ms' m).
Proof.
  intros [<-|[<-|[<-|[<-|[]]]]]; now split.
Qed.

Lemma single_stage_not_same_head (stage : Stage) :
  In stage [ByHeadPos; ByNamType; Weird; PleonasticPronoun] ->
  stage <> SameHeadLargestSpan.
Proof. intros [<-|[<-|[<-|[<-|[]]]]]; discriminate. Qed.

(** One of the four stages that test a mention by itself, run after
    another one. *)
Lemma single_stages_in_sequence (s1 s2 : Stage) ms :
  In s1 [ByHeadPos; ByNamType; Weird; PleonasticPronoun] ->
  In s2 [ByHeadPos; ByNamType; Weird; PleonasticPronoun] ->
  Forall well_formed ms ->
  (mid <- run_stage s1 ms ;; run_stage s2 mid)
  = Some (sorted mention_lt
            (filter (stage_test s2 ms) (filter (stage_test s1 ms) ms))).
Proof.
  intros H1 H2 Hwf.
  destruct (stage_selection Hwf (single_stage_not_same_head H1)) as [-> _].
  cbn [bind].
  set (mid := sorted mention_lt (filter (stage_test s1 ms) ms)).
  assert (Hmid : Forall well_formed mid) by now apply well_formed_selection.
  destruct (stage_selection Hmid (single_stage_not_same_head H2)) as [-> _].
  f_equal.
  rewrite (filter_ext _ _ (fun m => proj1 (single_stage_test mid ms m H2))).
  unfold mid.
  rewrite (filter_sorted mention_lt_asym mention_le_trans).
  apply sorted_fixed, sorted_Sorted. exact mention_lt_asym.
Qed.

(** X6: The four stages that test a mention by itself commute: run one after
    the other in either order on a list of well-formed mentions, they return
    the same list, which holds exactly the mentions that pass both. *)
Theorem single_mention_stages_commute (s1 s2 : Stage) ms :
  In s1 [ByHeadPos; ByNamType; Weird; PleonasticPronoun] ->
  In s2 [ByHeadPos; ByNamType; Weird; PleonasticPronoun] ->
  Forall well_formed ms ->
  exists out,
    (mid <- run_stage s1 ms ;; run_stage s2 mid) = Some out
    /\ (mid <- run_stage s2 ms ;; run_stage s1 mid) = Some out
    /\ forall m, In m out
                 <-> In m ms /\ passes s1 ms m /\ passes s2 ms m.
Proof.
  intros H1 H2 Hwf.
  rewrite (single_stages_in_sequence H1 H2 Hwf).
  rewrite (single_stages_in_sequence H2 H1 Hwf).
  eexists. split; [reflexivity|]. split.
  - now rewrite filter_swap.
  - intros m. rewrite sorted_In, !filter_In.
    destruct (stage_selection Hwf (single_stage_not_same_head H1))
      as [_ Ht1].
    destruct (stage_selection Hwf (single_stage_not_same_head H2))
      as [_ Ht2].
    split.
    + intros [[Hm T1] T2]. split; [exact Hm|].
      split; [now apply Ht1|now apply Ht2].
    + intros (Hm & P1 & P2). repeat split;
        [exact Hm|now apply Ht1|now apply Ht2].
Qed.
End Orders.

(** * The two stages that compare head spans *)

Lemma map_filter_split {A B : Type} (f : A -> B) (p : A -> bool)
  (l : list A) (g1 g2 : list B) (t : B) :
  map f (filter p l) = g1 ++ t :: g2 ->
  exists l1 x l2,
    l = l1 ++ x :: l2 /\ p x = true /\ f x = t
    /\ map f (filter p l1) = g1 /\ map f (filter p l2) = g2.
Proof.
  revert g1. induction l as [|y l IH]; intros g1; simpl.
  - destruct g1; discriminate.
  - destruct (p y) eqn:Hy; simpl.
    + destruct g1 as [|g g1]; simpl; intros [= Hg Hrest].
      * exists [], y, l. repeat split; assumption.
      * destruct (IH g1 Hrest) as (l1 & x & l2 & -> & Hx & Hf & H1 & H2).
        exists (y :: l1), x, l2. simpl. rewrite Hy. simpl.
        repeat split; try assumption. now rewrite Hg, H1.
    + intros H. destruct (IH g1 H) as (l1 & x & l2 & -> & Hx & Hf & H1 & H2).
      exists (y :: l1), x, l2. simpl. rewrite Hy.
      repeat split; assumption.
Qed.

Section HeadSpans.
Context {Tree : Type} {PT : ParseTree Tree}.
Implicit Types (m a r : Mention Tree) (ms out : list (Mention Tree)).

(** Where the representative of a head span stands in the input. *)
Lemma largest_of_position ms (h : Span) r :
  In h (dict_keys (head_span_to_mention ms)) ->
  largest_of (head_span_to_mention ms) h = Some r ->
  exists l1 l2,
    ms = l1 ++ r :: l2 /\ head_span r = h
    /\ (forall m, In m l1 -> head_span m = h ->
                  pair_lt (entry r) (entry m) = false)
    /\ (forall m, In m l2 -> head_span m = h ->
                  pair_lt (entry m) (entry r) = true).
Proof.
  intros Hk. unfold largest_of. rewrite (head_span_group _ _ Hk).
  cbn [bind].
  destruct (py_last (sorted pair_lt (map entry (filter _ ms))))
    as [top|] eqn:Htop; [|discriminate].
  cbn [bind]. intros [= <-].
  apply (py_last_sorted_position pair_lt_asym pair_le_trans)
    in Htop as (g1 & g2 & Hg & H1 & H2).
  apply map_filter_split in Hg
    as (l1 & x & l2 & -> & Hx & <- & <- & <-).
  exists l1, l2. simpl. apply span_eqb_eq in Hx.
  split; [reflexivity|]. split; [exact Hx|]. split.
  - intros m Hm Hh. apply H1. apply in_map, filter_In.
    split; [exact Hm|now apply span_eqb_eq].
  - intros m Hm Hh. apply H2. apply in_map, filter_In.
    split; [exact Hm|now apply span_eqb_eq].
Qed.

Lemma Forall2_In_right {A B : Type} (R : A -> B -> Prop) (l : list A)
  (l' : list B) (y : B) :
  Forall2 R l l' -> In y l' -> exists x, In x l /\ R x y.
Proof.
  induction 1 as [|x y' l l' Hxy _ IH]; [intros []|].
  intros [<-|Hy].
  - exists x. split; [now left|exact Hxy].
  - destruct (IH Hy) as (x' & Hx' & HR). exists x'. split; [now right|exact HR].
Qed.

(** X7: How the same-head stage breaks ties: a mention of the output stands
    in the input after every mention of its group that is not below it, and
    only mentions of its group strictly below it follow. Of the greatest
    mentions of a group the stage keeps the one that comes last in its
    input. *)
Theorem same_head_keeps_the_last_of_the_largest ms :
  exists out,
    post_process_same_head_largest_span ms = Some out
    /\ forall r, In r out ->
         exists l1 l2,
           ms = l1 ++ r :: l2
           /\ (forall m, In m l1 -> head_span m = head_span r ->
                         pair_le m r)
           /\ (forall m, In m l2 -> head_span m = head_span r ->
                         ~ pair_le r m).
Proof.
  unfold post_process_same_head_largest_span.
  destruct (@mapM_some _ _ (largest_of (head_span_to_mention ms))
              (dict_keys (head_span_to_mention ms)))
    as (reps & Hreps & HF).
  { intros h Hh. destruct (largest_of_spec ms h Hh) as (r & Hr & _).
    now exists r. }
  cbv zeta. rewrite Hreps. cbn [bind]. eexists. split; [reflexivity|].
  intros r Hr. apply sorted_In in Hr.
  destruct (@Forall2_In_right _ _ _ _ _ r HF Hr) as (h & Hh & Hlargest).
  destruct (@largest_of_position ms h r Hh Hlargest)
    as (l1 & l2 & Hms & Hhr & H1 & H2).
  exists l1, l2. split; [exact Hms|]. split.
  - intros m Hm Hmh. apply pair_lt_false_iff. apply H1; congruence.
  - intros m Hm Hmh Hle. apply pair_lt_false_iff in Hle.
    fold (entry m) in Hle. fold (entry r) in Hle.
    rewrite H2 in Hle; [discriminate|exact Hm|congruence].
Qed.

(** Among the mentions whose head span ends at a given offset a leftmost
    head. *)
Lemma leftmost_head ms (e : Z) :
  (exists m, In m ms /\ sp_end (head_span m) = e) ->
  exists r, In r ms /\ sp_end (head_span r) = e
            /\ forall a, In a ms -> sp_end (head_span a) = e ->
                         sp_begin (head_span r) <= sp_begin (head_span a).
Proof.
  induction ms as [|x ms IH]; [intros (m & [] & _)|].
  intros (m & Hm & He).
  destruct (existsb (fun a => sp_end (head_span a) =? e) ms) eqn:Ex.
  - apply existsb_exists in Ex as (m' & Hm' & He').
    apply Z.eqb_eq in He'.
    destruct IH as (r & Hr & Hre & Hmin); [now exists m'|].
    destruct (Z.eqb_spec (sp_end (head_span x)) e) as [Hxe|Hxe].
    + destruct (Z.ltb_spec (sp_begin (head_span x))
                           (sp_begin (head_span r))) as [Hlt|Hge].
      * exists x. split; [now left|]. split; [exact Hxe|].
        intros a [<-|Ha] Hae; [lia|].
        specialize (Hmin a Ha Hae). lia.
      * exists r. split; [now right|]. split; [exact Hre|].
        intros a [<-|Ha] Hae; [exact Hge|now apply Hmin].
    + exists r. split; [now right|]. split; [exact Hre|].
      intros a [<-|Ha] Hae; [contradiction|now apply Hmin].
  - assert (Hnone : forall a, In a ms -> sp_end (head_span a) <> e).
    { intros a Ha Hae.
      assert (existsb (fun a => sp_end (head_span a) =? e) ms = true).
      { apply existsb_exists. exists a. split; [exact Ha|].
        now apply Z.eqb_eq. }
      congruence. }
    destruct Hm as [<-|Hm]; [|now destruct (Hnone m Hm)].
    exists x. split; [now left|]. split; [exact He|].
    intros a [<-|Ha] Hae; [lia|now destruct (Hnone a Ha)].
Qed.

(** X8: The embedded-head stage never removes all the mentions whose head
    span ends at one offset: for every mention of the input it keeps a
    mention whose head span has the same end and begins no later. *)
Theorem embedded_head_keeps_a_leftmost_head ms m :
  In m ms ->
  exists out r,
    post_process_embedded_head_largest_span ms = Some out
    /\ In r out
    /\ sp_end (head_span r) = sp_end (head_span m)
    /\ sp_begin (head_span r) <= sp_begin (head_span m).
Proof.
  intros Hm. rewrite embedded_head_filter.
  destruct (@leftmost_head ms (sp_end (head_span m)))
    as (r & Hr & Hre & Hmin); [now exists m|].
  eexists. exists r. split; [reflexivity|].
  split; [|split; [exact Hre|now apply Hmin]].
  apply sorted_filter_In. split; [exact Hr|].
  apply negb_true_iff, not_true_iff_false.
  rewrite head_embedded_iff. intros (a & Ha & Hae & Hlt).
  assert (H := Hmin a Ha). rewrite Hre in Hae. specialize (H Hae). lia.
Qed.

(** X9: The order of two stages can matter. Of two mentions with one head
    span, the longer an excluded proper name and the shorter not, the
    same-head stage followed by the name-type stage keeps none, and the
    name-type stage followed by the same-head stage keeps the shorter. *)
Theorem same_head_and_nam_type_do_not_commute a b :
  well_formed a -> well_formed b ->
  head_span a = head_span b -> span_length a < span_length b ->
  ~ excluded_name a -> excluded_name b ->
  (mid <- post_process_same_head_largest_span [a; b] ;;
   post_process_by_nam_type mid) = Some []
  /\ (mid <- post_process_by_nam_type [a; b] ;;
      post_process_same_head_largest_span mid) = Some [a].
Proof.
  intros Ha Hb Hh Hlen Hna Hnb.
  assert (Ta : value_of nam_type_keep a = true)
    by now apply nam_type_keep_iff.
  assert (Tb : value_of nam_type_keep b = false).
  { apply not_true_iff_false. intros T.
    now apply (nam_type_keep_iff Hb) in T. }
  split.
  - destruct (same_head_pair a b Hh Hlen) as [-> _]. cbn [bind].
    rewrite nam_type_filter by (constructor; [exact Hb|constructor]).
    simpl. now rewrite Tb.
  - rewrite nam_type_filter
      by (constructor; [exact Ha|constructor; [exact Hb|constructor]]).
    cbn [bind filter]. rewrite Ta, Tb. simpl.
    change [a] with (sorted mention_lt [a]) at 2.
    apply same_head_distinct. repeat constructor. intros [].
Qed.
End HeadSpans.

Lemma NoDup_map_coarser {A B C : Type} (f : A -> B) (g : A -> C)
  (l : list A) :
  (forall x y, In x l -> In y l -> g x = g y -> f x = f y) ->
  NoDup (map f l) -> NoDup (map g l).
Proof.
  induction l as [|x l IH]; simpl; intros Hfg Hnd; [constructor|].
  inversion Hnd as [|? ? Hx Hl]; subst. constructor.
  - intros Hin. apply Hx. apply in_map_iff in Hin as (y & Hy & Hyl).
    apply in_map_iff. exists y. split; [|exact Hyl].
    apply Hfg; [now right|now left|exact Hy].
  - apply IH; [|exact Hl]. intros y z Hy Hz. apply Hfg; now right.
Qed.

Section HeadStagesInSequence.
Context {Tree : Type} {PT : ParseTree Tree}.
Implicit Types (m a r : Mention Tree) (ms out : list (Mention Tree)).

Lemma same_head_NoDup ms out :
  post_process_same_head_largest_span ms = Some out ->
  NoDup (map head_span out) /\ incl out ms.
Proof.
  destruct (same_head_output ms) as (reps & Hout & Hnd & _ & Hmax).
  rewrite Hout. intros [= <-]. split.
  - apply (Permutation_NoDup (l := map head_span reps)); [|exact Hnd].
    apply Permutation_map. symmetry. apply sorted_Permutation.
  - intros m Hm. apply sorted_In in Hm. now apply Hmax.
Qed.

Lemma embedded_head_one_head_per_end ms out :
  post_process_embedded_head_largest_span ms = Some out ->
  incl out ms
  /\ forall x y, In x out -> In y out ->
                 sp_end (head_span x) = sp_end (head_span y) ->
                 head_span x = head_span y.
Proof.
  rewrite embedded_head_filter. intros [= <-]. split.
  - intros m Hm. now apply sorted_filter_In in Hm.
  - intros x y Hx Hy He.
    apply sorted_filter_In in Hx as [Hx Tx], Hy as [Hy Ty].
    apply negb_true_iff, not_true_iff_false in Tx, Ty.
    rewrite head_embedded_iff in Tx, Ty.
    assert (~ sp_begin (head_span y) < sp_begin (head_span x)).
    { intros Hlt. apply Tx. exists y. now repeat split. }
    assert (~ sp_begin (head_span x) < sp_begin (head_span y)).
    { intros Hlt. apply Ty. exists x. now repeat split. }
    destruct (head_span x) as [bx ex], (head_span y) as [by' ey].
    simpl in *. f_equal; lia.
Qed.

(** X10: After the same-head stage and the embedded-head stage, in either
    order, no two mentions of the result have head spans with the same end. *)
Theorem head_stages_leave_one_mention_per_head_end ms :
  (exists out,
      (mid <- post_process_same_head_largest_span ms ;;
       post_process_embedded_head_largest_span mid) = Some out
      /\ NoDup (map (fun m => sp_end (head_span m)) out))
  /\ (exists out,
         (mid <- post_process_embedded_head_largest_span ms ;;
          post_process_same_head_largest_span mid) = Some out
         /\ NoDup (map (fun m => sp_end (head_span m)) out)).
Proof.
  split.
  - destruct (same_head_output ms) as (reps & Hmid & _).
    rewrite Hmid. cbn [bind].
    destruct (same_head_NoDup ms Hmid) as [Hnd _].
    set (mid := sorted mention_lt reps) in *.
    destruct (post_process_embedded_head_largest_span mid)
      as [out|] eqn:Hout;
      [|rewrite embedded_head_filter in Hout; discriminate].
    exists out. split; [reflexivity|].
    destruct (embedded_head_one_head_per_end mid Hout) as [_ Hone].
    apply (NoDup_map_coarser head_span); [exact Hone|].
    rewrite embedded_head_filter in Hout. injection Hout as <-.
    apply (Permutation_NoDup
             (l := map head_span
                     (filter (fun m => negb (head_embedded mid m)) mid))).
    + apply Permutation_map. symmetry. apply sorted_Permutation.
    + now apply NoDup_map_filter.
  - rewrite embedded_head_filter. cbn [bind].
    set (mid := sorted mention_lt
                  (filter (fun m => negb (head_embedded ms m)) ms)).
    assert (Hmid : post_process_embedded_head_largest_span ms = Some mid)
      by apply embedded_head_filter.
    destruct (embedded_head_one_head_per_end ms Hmid) as [_ Hone].
    destruct (same_head_output mid) as (reps & Hout & _).
    rewrite Hout. eexists. split; [reflexivity|].
    destruct (same_head_NoDup mid Hout) as [Hnd Hincl].
    apply (NoDup_map_coarser head_span); [|exact Hnd].
    intros x y Hx Hy. apply Hone; now apply Hincl.
Qed.
End HeadStagesInSequence.

(** * The two stages that compare the surface text *)

Lemma has_space_app (s t : string) :
  has_space (s ++ t) = has_space s || has_space t.
Proof.
  induction s as [|c s IH]; simpl; [reflexivity|].
  now rewrite IH, orb_assoc.
Qed.

Lemma join_space_has_space (l : list string) :
  (2 <= List.length l)%nat -> has_space (join_space l) = true.
Proof.
  destruct l as [|s [|s' l]]; simpl; try lia. intros _.
  change (has_space (s ++ " " ++ join_space (s' :: l)) = true).
  rewrite !has_space_app. simpl. now rewrite orb_true_r.
Qed.

Lemma lower_ascii_space (c : ascii) :
  Ascii.eqb (lower_ascii c) " " = Ascii.eqb c " ".
Proof.
  destruct c as [[] [] [] [] [] [] [] []]; reflexivity.
Qed.

Lemma has_space_lower (s : string) : has_space (lower s) = has_space s.
Proof.
  induction s as [|c s IH]; simpl; [reflexivity|].
  now rewrite lower_ascii_space, IH.
Qed.

Section SurfaceText.
Context {Tree : Type} {PT : ParseTree Tree}.
Implicit Types (m : Mention Tree) (ms out : list (Mention Tree)).

Lemma one_token_phrases m :
  weird_phrase m \/ pleonastic_it m \/ pleonastic_you m ->
  has_space (surface m) = false /\ surface m <> "".
Proof.
  unfold weird_phrase, pleonastic_it, pleonastic_you.
  rewrite <- (has_space_lower (surface m)).
  assert (Hlow : lower (surface m) <> "" -> surface m <> "").
  { intros H E. apply H. now rewrite E. }
  intros [[[H|[H|[H|[H|[]]]]]|[H|H]]|[[H _]|[H _]]];
    try (rewrite <- H; split; [reflexivity|apply Hlow; now rewrite <- H]);
    try (rewrite H; split; [reflexivity|apply Hlow; now rewrite H]).
  - rewrite has_space_lower, H. split; [reflexivity|discriminate].
  - rewrite has_space_lower, H. split; [reflexivity|discriminate].
Qed.

(** X11: The fixed-phrase stage and the pleonastic-pronoun stage only ever
    remove mentions of exactly one token: a mention with no token or with
    two or more tokens is in the output of both. *)
Theorem phrase_stages_keep_all_but_one_token_mentions ms m :
  In m ms -> List.length (tokens m) <> 1%nat ->
  In m (post_process_weird ms)
  /\ exists out,
       post_process_pleonastic_pronoun ms = Some out /\ In m out.
Proof.
  intros Hm Hlen.
  assert (Hnone : ~ (weird_phrase m \/ pleonastic_it m \/ pleonastic_you m)).
  { intros H. apply one_token_phrases in H as [Hsp Hne].
    unfold surface in *.
    destruct (tokens m) as [|s [|s' l]] eqn:E.
    - now apply Hne.
    - now apply Hlen.
    - rewrite join_space_has_space in Hsp by (simpl; lia). discriminate. }
  split.
  - unfold post_process_weird. apply sorted_filter_In.
    split; [exact Hm|]. apply weird_keep_iff. tauto.
  - rewrite pleonastic_filter. eexists. split; [reflexivity|].
    apply sorted_filter_In. split; [exact Hm|].
    apply pleonastic_keep_iff. tauto.
Qed.
End SurfaceText.

(** * The order of the extracted mentions, and the two dictionaries *)

Section ExtractionOrder.
Context {Tree : Type} {PT : ParseTree Tree}.
Implicit Types (d : Document Tree) (m : Mention Tree)
  (ms out : list (Mention Tree)).

Lemma spans_sorted_by_span ms :
  StronglySorted span_le (map span ms) -> sorted_by_span ms.
Proof.
  unfold sorted_by_span. induction ms as [|m ms IH]; [constructor|].
  simpl. intros H. apply StronglySorted_inv in H as [Hs Hm].
  constructor; [now apply IH|].
  rewrite Forall_forall in *. intros x Hx. apply Hm. now apply in_map.
Qed.

Lemma no_dummies out :
  Forall (fun m => is_dummy m = false) out -> filter is_dummy out = [].
Proof.
  intros H. apply filter_none. now apply Forall_forall.
Qed.

(** X13: Whenever extraction returns, its result holds exactly one dummy
    mention, in the first place, and the mentions after it are in span order
    if and only if the annotated mentions of the document are: extraction
    leaves the order of the document as it is. *)
Theorem extract_system_mentions_leaves_the_order d (b : bool) out :
  extract_system_mentions d b = Some out ->
  count_dummies out = 1%nat
  /\ option_map is_dummy (py_first out) = Some true
  /\ (sorted_by_span (tl out)
      <-> StronglySorted span_le (annotated_mentions d)).
Proof.
  intros Hout.
  apply extract_system_mentions_inv in Hout
    as (rest & -> & _ & Hspans & Hrest).
  split; [|split].
  - unfold count_dummies. simpl. now rewrite (no_dummies Hrest).
  - reflexivity.
  - simpl. rewrite <- Hspans.
    split; [apply sorted_by_span_spans|apply spans_sorted_by_span].
Qed.

(** X14: The dictionaries the two head stages build. [head_span_to_mention]
    has one key for every head span of the input and no other, and under a
    head span the entries of exactly the mentions with that head span, in
    the order of the input; [map_for_heads] has one key for every head-span
    end, and under it the head-span begins of the mentions with that end. A
    key that is no head span (end) of the input is missing. *)
Theorem grouping_dictionaries ms :
  (NoDup (dict_keys (head_span_to_mention ms))
   /\ forall h : Span,
        dict_get span_eqb (head_span_to_mention ms) h
        = if existsb (fun m => span_eqb (head_span m) h) ms
          then Some (map entry
                       (filter (fun m => span_eqb (head_span m) h) ms))
          else None)
  /\ (NoDup (dict_keys (map_for_heads ms))
      /\ forall e : Z,
           dict_get Z.eqb (map_for_heads ms) e
           = if existsb (fun m => sp_end (head_span m) =? e) ms
             then Some (map (fun m => sp_begin (head_span m))
                          (filter (fun m => sp_end (head_span m) =? e) ms))
             else None).
Proof.
  split; split.
  - apply head_span_keys_NoDup.
  - intros h.
    destruct (existsb (fun m => span_eqb (head_span m) h) ms) eqn:E.
    + apply head_span_group, head_span_keys.
      apply existsb_exists in E as (m & Hm & Hh).
      exists m. split; [exact Hm|now apply span_eqb_eq].
    + destruct (dict_get span_eqb (head_span_to_mention ms) h)
        as [l|] eqn:G; [|reflexivity].
      assert (Hk : In h (dict_keys (head_span_to_mention ms))).
      { apply (dict_get_keys span_eqb span_eqb_eq). now exists l. }
      apply head_span_keys in Hk as (m & Hm & Hh).
      assert (existsb (fun m => span_eqb (head_span m) h) ms = true).
      { apply existsb_exists. exists m. split; [exact Hm|].
        now apply span_eqb_eq. }
      congruence.
  - apply (group_by_NoDup Z.eqb Z.eqb_eq). constructor.
  - intros e. unfold map_for_heads.
    set (kend := fun m : Mention Tree => sp_end (head_span m)).
    set (kbegin := fun m : Mention Tree => sp_begin (head_span m)).
    change (dict_get Z.eqb (group_by Z.eqb kend kbegin ms []) e
            = if existsb (fun m => kend m =? e) ms
              then Some (map kbegin (filter (fun m => kend m =? e) ms))
              else None).
    assert (Hkeys : In e (dict_keys (group_by Z.eqb kend kbegin ms []))
                    <-> existsb (fun m => kend m =? e) ms = true).
    { rewrite (group_by_keys Z.eqb Z.eqb_eq), existsb_exists. simpl.
      split.
      - intros [[]|(m & Hm & He)]. exists m. split; [exact Hm|].
        now apply Z.eqb_eq.
      - intros (m & Hm & He). right. exists m. split; [exact Hm|].
        now apply Z.eqb_eq. }
    destruct (existsb (fun m => kend m =? e) ms) eqn:E.
    + rewrite (dict_get_values Z.eqb Z.eqb_eq) by now apply Hkeys.
      now rewrite (group_by_values Z.eqb Z.eqb_eq).
    + destruct (dict_get Z.eqb (group_by Z.eqb kend kbegin ms []) e)
        as [l|] eqn:G; [|reflexivity].
      assert (Hk : In e (dict_keys (group_by Z.eqb kend kbegin ms []))).
      { apply (dict_get_keys Z.eqb Z.eqb_eq). now exists l. }
      apply Hkeys in Hk. discriminate.
Qed.
End ExtractionOrder.

(** * How far the pleonastic-pronoun stage looks *)

Section Lookahead.
Context {Tree : Type} {PT : ParseTree Tree}.
Implicit Types (m : Mention Tree) (ms out : list (Mention Tree)).

Lemma get_context_prefix m (n : nat) (following : list string) :
  skipn (Z.to_nat (sp_end (span m))) (document_tokens m) = following ->
  (n <= List.length following)%nat ->
  get_context m n = Some (firstn n following).
Proof.
  intros <- Hn. unfold get_context.
  apply Nat.leb_le in Hn. now rewrite Hn.
Qed.

(** X12: For an [it] that is followed by at least three tokens the stage
    compares the second and the third of them with [that] and nothing else:
    the mention is kept exactly when neither is [that], whatever comes after
    the third token. So [it _ that] and [it _ _ that] are removed, and [it _
    _ _ that] is kept. *)
Theorem pleonastic_it_looks_three_tokens_ahead ms m
  (w1 w2 w3 : string) (rest : list string) :
  In m ms -> lower (surface m) = "it" ->
  skipn (Z.to_nat (sp_end (span m))) (document_tokens m)
  = w1 :: w2 :: w3 :: rest ->
  exists out,
    post_process_pleonastic_pronoun ms = Some out
    /\ (In m out <-> w2 <> "that" /\ w3 <> "that").
Proof.
  intros Hm Hit Hfollow.
  rewrite pleonastic_filter. eexists. split; [reflexivity|].
  rewrite sorted_filter_In, pleonastic_keep_iff.
  assert (H2 : get_context m 2 = Some [w1; w2])
    by (rewrite (@get_context_prefix m 2%nat _ Hfollow);
        [reflexivity|simpl; lia]).
  assert (H3 : get_context m 3 = Some [w1; w2; w3])
    by (rewrite (@get_context_prefix m 3%nat _ Hfollow);
        [reflexivity|simpl; lia]).
  unfold pleonastic_it, pleonastic_you, context_ends_in_that.
  rewrite H2, H3, Hit. split.
  - intros [_ Hno]. split; intros ->; apply Hno; left;
      (split; [reflexivity|]).
    + left. eexists. split; reflexivity.
    + right. eexists. split; reflexivity.
  - intros [N2 N3]. split; [exact Hm|].
    intros [[_ [(c & [= <-] & [= E])|(c & [= <-] & [= E])]]|[E _]];
      [now apply N2|now apply N3|discriminate].
Qed.
End Lookahead.

(** * The further properties on sample data *)

Lemma post_process_by_head_pos_raises_or_selects_witness :
  post_process_by_head_pos [m_dog; with_head_index 1 m_happy] = None
  /\ exists out,
       post_process_by_head_pos [with_head_index (-1) m_dog; m_happy]
       = Some out
       /\ In (with_head_index (-1) m_dog) out /\ ~ In m_happy out.
Proof.
  split.
  - apply (post_process_by_head_pos_raises_or_selects
             [m_dog; with_head_index 1 m_happy]).
    exists (with_head_index 1 m_happy).
    split; [right; now left|]. right. simpl. lia.
  - exists [with_head_index (-1) m_dog]. split; [reflexivity|].
    destruct (post_process_by_head_pos_raises_or_selects
                [with_head_index (-1) m_dog; m_happy]) as [_ Hsel].
    specialize (Hsel [with_head_index (-1) m_dog] eq_refl). split.
    + now left.
    + intros H. apply Hsel in H as [_ H]. apply H.
      exists "JJ". split; [reflexivity|now exists ""].
Defined.

Lemma post_process_by_nam_type_raises_or_selects_witness :
  post_process_by_nam_type [with_head_index 9 m_money] = None
  /\ exists out,
       post_process_by_nam_type [m_money; with_head_index 9 m_three]
       = Some out
       /\ In (with_head_index 9 m_three) out /\ ~ In m_money out.
Proof.
  split.
  - apply (post_process_by_nam_type_raises_or_selects
             [with_head_index 9 m_money]).
    exists (with_head_index 9 m_money).
    split; [now left|]. split; [reflexivity|]. right. simpl. lia.
  - exists [with_head_index 9 m_three]. split; [reflexivity|].
    destruct (post_process_by_nam_type_raises_or_selects
                [m_money; with_head_index 9 m_three]) as [_ Hsel].
    destruct (Hsel [with_head_index 9 m_three] eq_refl) as [Hmem Hother].
    split.
    + apply Hother; [right; now left|discriminate].
    + intros H. apply Hmem in H as [_ H]. apply H.
      split; [reflexivity|]. exists "MONEY".
      split; [reflexivity|]. simpl. tauto.
Defined.

Lemma stages_only_remove_witness :
  run_stage ByHeadPos [m_happy; m_dog] = Some [m_dog]
  /\ incl [m_dog] [m_happy; m_dog]
  /\ (List.length [m_dog] <= List.length [m_happy; m_dog])%nat.
Proof.
  split; [reflexivity|].
  apply (@stages_only_remove _ _ ByHeadPos [m_happy; m_dog] [m_dog]).
  reflexivity.
Defined.

Lemma stage_with_nothing_to_remove_sorts_witness :
  run_stage SameHeadLargestSpan [m_five; m_wide_head]
  = Some (sorted mention_lt [m_five; m_wide_head])
  /\ run_stage Weird [m_us; m_dog] = Some (sorted mention_lt [m_us; m_dog]).
Proof.
  split.
  - apply stage_with_nothing_to_remove_sorts.
    + repeat constructor; simpl; lia.
    + intros H. now contradiction H.
    + intros _. simpl. repeat constructor; simpl; intuition discriminate.
  - apply stage_with_nothing_to_remove_sorts.
    + repeat constructor; simpl; lia.
    + intros _ m [<-|[<-|[]]]; simpl; unfold weird_phrase; simpl;
        intuition discriminate.
    + discriminate.
Defined.

Lemma stage_output_ignores_input_order_witness :
  exists out out',
    run_stage EmbeddedHeadLargestSpan [m_narrow_head; m_wide_head; m_dog]
    = Some out
    /\ run_stage EmbeddedHeadLargestSpan [m_wide_head; m_narrow_head; m_dog]
       = Some out'
    /\ Permutation out out'
    /\ map span out = map span out'.
Proof.
  apply stage_output_ignores_input_order.
  - repeat constructor; simpl; lia.
  - apply perm_swap.
  - discriminate.
Defined.

Lemma single_mention_stages_commute_witness :
  exists out,
    (mid <- run_stage ByHeadPos [m_um; m_happy; m_dog] ;;
     run_stage Weird mid) = Some out
    /\ (mid <- run_stage Weird [m_um; m_happy; m_dog] ;;
        run_stage ByHeadPos mid) = Some out
    /\ forall m, In m out
                 <-> In m [m_um; m_happy; m_dog]
                     /\ passes ByHeadPos [m_um; m_happy; m_dog] m
                     /\ passes Weird [m_um; m_happy; m_dog] m.
Proof.
  apply single_mention_stages_commute.
  - now left.
  - right. right. now left.
  - repeat constructor; simpl; lia.
Defined.

Lemma embedded_head_keeps_a_leftmost_head_witness :
  exists out r,
    post_process_embedded_head_largest_span [m_narrow_head; m_wide_head]
    = Some out
    /\ In r out
    /\ sp_end (head_span r) = sp_end (head_span m_narrow_head)
    /\ sp_begin (head_span r) <= sp_begin (head_span m_narrow_head).
Proof.
  apply embedded_head_keeps_a_leftmost_head. now left.
Defined.

Lemma same_head_and_nam_type_do_not_commute_witness :
  (mid <- post_process_same_head_largest_span [m_three; m_money] ;;
   post_process_by_nam_type mid) = Some []
  /\ (mid <- post_process_by_nam_type [m_three; m_money] ;;
      post_process_same_head_largest_span mid) = Some [m_three].
Proof.
  apply same_head_and_nam_type_do_not_commute.
  - repeat split; simpl; lia.
  - repeat split; simpl; lia.
  - reflexivity.
  - unfold span_length. simpl. lia.
  - intros [H _]. discriminate.
  - split; [reflexivity|]. exists "MONEY".
    split; [reflexivity|]. simpl. tauto.
Defined.

Lemma phrase_stages_keep_all_but_one_token_mentions_witness :
  In m_five (post_process_weird [m_um; m_five])
  /\ exists out,
       post_process_pleonastic_pronoun [m_um; m_five] = Some out
       /\ In m_five out.
Proof.
  apply phrase_stages_keep_all_but_one_token_mentions.
  - right. now left.
  - simpl. lia.
Defined.

Lemma extract_system_mentions_leaves_the_order_witness :
  exists out,
    extract_system_mentions sorted_document true = Some out
    /\ count_dummies out = 1%nat
    /\ option_map is_dummy (py_first out) = Some true
    /\ (sorted_by_span (tl out)
        <-> StronglySorted span_le (annotated_mentions sorted_document)).
Proof.
  eexists. split; [reflexivity|].
  apply (@extract_system_mentions_leaves_the_order _ sorted_document true).
  reflexivity.
Defined.

Lemma pleonastic_it_looks_three_tokens_ahead_witness :
  (exists out,
      post_process_pleonastic_pronoun [m_it_far] = Some out
      /\ In m_it_far out)
  /\ (exists out,
         post_process_pleonastic_pronoun [m_it] = Some out
         /\ ~ In m_it out).
Proof.
  split.
  - destruct (@pleonastic_it_looks_three_tokens_ahead _ [m_it_far]
                m_it_far "is" "very" "clear" ["that"])
      as (out & Hout & Hin); [now left|reflexivity|reflexivity|].
    exists out. split; [exact Hout|]. apply Hin. split; discriminate.
  - destruct (@pleonastic_it_looks_three_tokens_ahead _ [m_it]
                m_it "seems" "clear" "that" ["you"; "know"; "it"])
      as (out & Hout & Hin); [now left|reflexivity|reflexivity|].
    exists out. split; [exact Hout|]. intros H. apply Hin in H as [_ H].
    now apply H.
Defined.

Lemma same_head_keeps_the_last_of_the_largest_witness :
  exists out,
    post_process_same_head_largest_span [m_five; as_dummy m_five] = Some out
    /\ forall r, In r out ->
         exists l1 l2,
           [m_five; as_dummy m_five] = l1 ++ r :: l2
           /\ (forall m, In m l1 -> head_span m = head_span r ->
                         pair_le m r)
           /\ (forall m, In m l2 -> head_span m = head_span r ->
                         ~ pair_le r m).
Proof.
  exact (same_head_keeps_the_last_of_the_largest [m_five; as_dummy m_five]).
Defined.

Lemma head_stages_leave_one_mention_per_head_end_witness :
  (exists out,
      (mid <- post_process_same_head_largest_span
                [m_narrow_head; m_wide_head; m_three] ;;
       post_process_embedded_head_largest_span mid) = Some out
      /\ NoDup (map (fun m => sp_end (head_span m)) out))
  /\ (exists out,
         (mid <- post_process_embedded_head_largest_span
                   [m_narrow_head; m_wide_head; m_three] ;;
          post_process_same_head_largest_span mid) = Some out
         /\ NoDup (map (fun m => sp_end (head_span m)) out)).
Proof.
  exact (head_stages_leave_one_mention_per_head_end
           [m_narrow_head; m_wide_head; m_three]).
Defined.

